(** * sampleGoServer: the number-aggregating HTTP server

    A shallow embedding of [server.go] and the properties of its core:
    the per-URL fetcher with its cache fallback, the orchestrator
    [processURLs] that runs one goroutine per URL and collects one result
    from each over a channel, and the reducer [processFinalResult].

    Go code that talks to the outside world (the context, the HTTP client,
    the JSON decoder, the cache, the channel) is written in a small free
    monad [prog]: a program is a tree of events, each with a continuation.
    One handler gives the events their meaning; it is used both to run a
    single goroutine from start to end ([interp]) and to run a pool of
    goroutines one event at a time in any order ([step_at], [run]). *)

From Stdlib Require Import ZArith Lia Ascii.
From stdpp Require Import base option list gmap strings pretty sorting.

(** ** Go values *)

(** Go's [int]: only compared and stored here, never computed with. *)
Definition int := Z.

(** A Go slice. The zero value [nil] and an allocated slice of length 0 are
    different values ([encoding/json] prints them as [null] and [[]]), so
    they are kept apart. *)
Inductive slice (A : Type) : Type :=
| nil_slice
| mk_slice (l : list A).
Arguments nil_slice {A}.
Arguments mk_slice {A} l.

Definition elems {A} (s : slice A) : list A :=
  match s with
  | nil_slice => []
  | mk_slice l => l
  end.

Definition len {A} (s : slice A) : nat := length (elems s).

Definition append {A} (s : slice A) (x : A) : slice A := mk_slice (elems s ++ [x]).

Definition is_nil {A} (s : slice A) : bool :=
  match s with
  | nil_slice => true
  | mk_slice _ => false
  end.

(** [type payload struct { Numbers []int }] and [type result struct { data payload }]. *)
Record payload := { Numbers : slice int }.
Record result := { data : payload }.

Definition error := string.

(** A Go call returning [(x, err)]. *)
Inductive goret (X : Type) : Type :=
| Ok (x : X)
| Err (err : error).
Arguments Ok {X} x.
Arguments Err {X} err.

(** A value of type [interface{}]: the cache stores such values. The server
    only ever looks for the dynamic type [[]int]. *)
Inductive any :=
| any_ints (s : slice int)
| any_other (type_name : string).

(** The two-result type assertion [data, ok = val.([]int)]: on a value of
    another dynamic type it yields the zero value and [false]; it does not
    panic. *)
Definition assert_ints (val : any) : slice int * bool :=
  match val with
  | any_ints s => (s, true)
  | any_other _ => (nil_slice, false)
  end.

(** ** Durations and the constants of [server.go] (nanoseconds) *)

Definition Millisecond : Z := 1000000.
Definition Minute : Z := 60000000000.

Definition timeoutServer : Z := 500 * Millisecond.
Definition timeoutGetReq : Z := 400 * Millisecond.
Definition cacheExpiration : Z := 10 * Minute.

(** ** The cache package *)

(** Modelled from the spec: the package [github.com/patrickmn/go-cache],
    which [server.go] imports and which is not part of the sources. One
    entry per key, holding the object and its expiration time; expiry is
    evaluated on read, an entry past its expiration time behaves as a
    miss; nothing else evicts (the server passes a cleanup interval of 0).
    [server.go] overwrites by [Delete] followed by [Add], [Add] being the
    call that stores only when the key has no live entry and reports an
    error otherwise. Time is the caller's clock in nanoseconds. *)
Module gocache.

Record Item := { Object : any; Expiration : Z }.

Definition DefaultExpiration : Z := 0.

Record Cache := { defaultExpiration : Z; items : gmap string Item }.

(** Modelled from the spec: an empty cache with the given default
    expiration; no background cleanup. *)
Definition New (defaultExpiration cleanupInterval : Z) : Cache :=
  {| defaultExpiration := defaultExpiration; items := ∅ |}.

(** Modelled from the spec: the lookup, with expiry evaluated at [now]. *)
Definition get (c : Cache) (now : Z) (k : string) : option any :=
  match items c !! k with
  | None => None
  | Some item =>
      if bool_decide (0 < Expiration item)%Z && bool_decide (Expiration item < now)%Z
      then None
      else Some (Object item)
  end.

(** Modelled from the spec: the store; it replaces the entry of [k] and
    sets its expiration time to [now + d]. *)
Definition set (c : Cache) (now : Z) (k : string) (x : any) (d : Z) : Cache :=
  let d := if bool_decide (d = DefaultExpiration) then defaultExpiration c else d in
  let e := if bool_decide (0 < d)%Z then (now + d)%Z else 0%Z in
  {| defaultExpiration := defaultExpiration c;
     items := <[k := {| Object := x; Expiration := e |}]> (items c) |}.

(** Modelled from the spec: [Get] returns [(object, true)] or
    [(nil, false)], here an [option]. *)
Definition Get (c : Cache) (now : Z) (k : string) : option any := get c now k.

(** Modelled from the spec: [Add] stores only when the key has no live
    entry; otherwise it returns an error and changes nothing. *)
Definition Add (c : Cache) (now : Z) (k : string) (x : any) (d : Z)
  : option error * Cache :=
  match get c now k with
  | Some _ => (Some "Item already exists"%string, c)
  | None => (None, set c now k x d)
  end.

(** Modelled from the spec: [Delete] removes the entry of the key, if any. *)
Definition Delete (c : Cache) (k : string) : Cache :=
  {| defaultExpiration := defaultExpiration c; items := delete k (items c) |}.

End gocache.

(** [var serverCache = cache.New(cacheExpiration, 0)] *)
Definition serverCache : gocache.Cache := gocache.New cacheExpiration 0.

(** ** Programs *)

Record request := { req_url : string }.
Record response := { Body : string }.

(** What a goroutine of the server can do to its surroundings. *)
Inductive event : Type → Type :=
| CtxDone : event bool                                 (* select { case <-ctx.Done(): ... default: ... } *)
| LogPrintf (format : string) : event unit
| CacheGet (k : string) : event (option any)           (* serverCache.Get *)
| CacheDelete (k : string) : event unit                (* serverCache.Delete *)
| CacheAdd (k : string) (x : any) (d : Z) : event (option error)  (* serverCache.Add *)
| NewRequestWithContext (url : string) : event (goret request)
| ClientDo (req : request) : event (goret response)
| JsonDecode (resp : response) : event (goret payload)
| BodyClose (resp : response) : event unit
| ChanSend (r : result) : event unit.                  (* ch <- r *)

Inductive prog (A : Type) : Type :=
| Ret (a : A)
| Vis {X : Type} (ev : event X) (k : X → prog A).
Arguments Ret {A} a.
Arguments Vis {A X} ev k.

Fixpoint bind {A B} (p : prog A) (f : A → prog B) : prog B :=
  match p with
  | Ret a => f a
  | Vis ev k => Vis ev (λ x, bind (k x) f)
  end.

Definition trigger {X} (ev : event X) : prog X := Vis ev Ret.

#[global] Instance prog_ret : MRet prog := @Ret.
#[global] Instance prog_bind : MBind prog := λ A B f p, bind p f.

(** ** The functions of [server.go] *)

Definition getResultFromCache (url : string) : prog (slice int) :=
  r ← trigger (CacheGet url);
  mret (match r with
        | Some val => (assert_ints val).1
        | None => nil_slice
        end).

Definition updateCache (url : string) (numbers : slice int) : prog unit :=
  trigger (CacheDelete url);;
  _ ← trigger (CacheAdd url (any_ints numbers) cacheExpiration);
  mret tt.

Definition makeGetRequestForURL (url : string) : prog unit :=
  trigger (LogPrintf "sending GET request to URL %s");;
  r ← trigger (NewRequestWithContext url);
  match r with
  | Err err =>
      trigger (LogPrintf "%s. Fetching result from cache");;
      cached ← getResultFromCache url;
      trigger (ChanSend {| data := {| Numbers := cached |} |})
  | Ok req =>
      r ← trigger (ClientDo req);
      match r with
      | Err err =>
          trigger (LogPrintf "%s. Fetching result from cache");;
          cached ← getResultFromCache url;
          trigger (ChanSend {| data := {| Numbers := cached |} |})
      | Ok resp =>
          (* defer resp.Body.Close(): runs when the function returns *)
          r ← trigger (JsonDecode resp);
          match r with
          | Err err =>
              trigger (LogPrintf "%s. Fetching result from cache");;
              cached ← getResultFromCache url;
              trigger (ChanSend {| data := {| Numbers := cached |} |});;
              trigger (BodyClose resp)
          | Ok numbers =>
              (if bool_decide (0 < len (Numbers numbers))
               then updateCache url (Numbers numbers)
               else mret tt);;
              trigger (ChanSend {| data := numbers |});;
              trigger (BodyClose resp)
          end
      end
  end.

Definition getResponseFromURL (url : string) : prog unit :=
  done ← trigger CtxDone;
  if done : bool then
    trigger (LogPrintf "timeout reached for URL: %s. Fetching result from cache...");;
    cached ← getResultFromCache url;
    trigger (ChanSend {| data := {| Numbers := cached |} |})
  else makeGetRequestForURL url.

(** [sort.Ints] of Go's standard library: sorts a slice of ints in
    increasing order, in place. On ints every sorting algorithm gives the
    same slice; a merge sort stands for it. *)
Definition sort_Ints (s : slice int) : slice int :=
  match s with
  | nil_slice => nil_slice
  | mk_slice l => mk_slice (merge_sort Z.le l)
  end.

(** [processFinalResult]: the map [uniqueNumbers] is a [map[int]struct{}]. *)
Definition add_number (st : gmap Z unit * slice int) (num : int) : gmap Z unit * slice int :=
  let '(uniqueNumbers, uniqueNumbersSlice) := st in
  match uniqueNumbers !! num with
  | Some _ => (uniqueNumbers, uniqueNumbersSlice)
  | None => (<[num := tt]> uniqueNumbers, append uniqueNumbersSlice num)
  end.

Definition add_result (st : gmap Z unit * slice int) (r : result) : gmap Z unit * slice int :=
  foldl add_number st (elems (Numbers (data r))).

Definition processFinalResult (res : list result) : slice int :=
  let uniqueNumbers : gmap Z unit := ∅ in
  let uniqueNumbersSlice : slice int := mk_slice [] in
  let '(_, uniqueNumbersSlice) := foldl add_result (uniqueNumbers, uniqueNumbersSlice) res in
  sort_Ints uniqueNumbersSlice.

Definition ints (l : list Z) : result := {| data := {| Numbers := mk_slice l |} |}.

(** ** Running programs *)

(** What the outside world answers to one goroutine: whether its context is
    already done when it looks, and what the HTTP client and the JSON
    decoder give it. A deadline that passes while the request is in flight
    shows as an error of [client_do]. *)
Record netenv := {
  ctx_done : bool;
  new_request : string → goret request;
  client_do : request → goret response;
  json_decode : response → goret payload
}.

(** The meaning of one event, at time [now], on the shared cache. *)
Definition handle (e : netenv) (now : Z) {X} (ev : event X) (c : gocache.Cache)
  : X * gocache.Cache :=
  match ev in event X return X * gocache.Cache with
  | CtxDone => (ctx_done e, c)
  | LogPrintf _ => (tt, c)
  | CacheGet k => (gocache.Get c now k, c)
  | CacheDelete k => (tt, gocache.Delete c k)
  | CacheAdd k x d => gocache.Add c now k x d
  | NewRequestWithContext url => (new_request e url, c)
  | ClientDo req => (client_do e req, c)
  | JsonDecode resp => (json_decode e resp, c)
  | BodyClose _ => (tt, c)
  | ChanSend _ => (tt, c)
  end.

Definition action := { X : Type & event X }.

Definition sent_of {X} (ev : event X) : option result :=
  match ev with
  | ChanSend r => Some r
  | _ => None
  end.

Definition is_network {X} (ev : event X) : bool :=
  match ev with
  | NewRequestWithContext _ | ClientDo _ | JsonDecode _ | BodyClose _ => true
  | _ => false
  end.

Definition is_cache_write {X} (ev : event X) : bool :=
  match ev with
  | CacheDelete _ | CacheAdd _ _ _ => true
  | _ => false
  end.

Definition is_cache_read {X} (ev : event X) : option string :=
  match ev with
  | CacheGet k => Some k
  | _ => None
  end.

(** The results a trace puts on the channel, in order. *)
Definition sent (tr : list action) : list result := omap (λ a, sent_of (projT2 a)) tr.

(** One goroutine run from start to end with nothing in between: the value
    it returns, the cache it leaves, the events it performed. *)
Fixpoint interp {A} (e : netenv) (now : Z) (p : prog A) (c : gocache.Cache)
  : A * gocache.Cache * list action :=
  match p with
  | Ret a => (a, c, [])
  | Vis ev k =>
      let '(x, c') := handle e now ev c in
      let '(a, c'', tr) := interp e now (k x) c' in
      (a, c'', existT _ ev :: tr)
  end.

(** ** The orchestrator

    [processURLs] starts one goroutine per URL, all sending on one
    unbuffered channel, and then receives [len(urls)] times, appending what
    it receives. The state of that system: the goroutines with the code
    each has left to run, the shared cache, the clock, and the results
    received so far. A send can happen only while the receiving loop is
    still running, that is while fewer than [len(urls)] results have been
    received. *)
Abbreviation goroutine := (netenv * prog unit)%type.

Record sys := {
  pool : list goroutine;
  cache : gocache.Cache;
  clock : Z;
  results : list result
}.

(** Goroutine [i] performs its next event at time [t]. *)
Definition step_at (i : nat) (t : Z) (s : sys) : option sys :=
  match pool s !! i with
  | Some (e, Vis ev k) =>
      if bool_decide (clock s ≤ t)%Z then
        let '(x, c') := handle e t ev (cache s) in
        match sent_of ev with
        | Some r =>
            if bool_decide (length (results s) < length (pool s)) then
              Some {| pool := <[i := (e, k x)]> (pool s); cache := c'; clock := t;
                      results := results s ++ [r] |}
            else None
        | None =>
            Some {| pool := <[i := (e, k x)]> (pool s); cache := c'; clock := t;
                    results := results s |}
        end
      else None
  | _ => None
  end.

(** A schedule says which goroutine moves next and when. *)
Fixpoint run (sched : list (nat * Z)) (s : sys) : option sys :=
  match sched with
  | [] => Some s
  | (i, t) :: sched =>
      match step_at i t s with
      | Some s' => run sched s'
      | None => None
      end
  end.

(** [for _, url := range urls { go getResponseFromURL(childCtx, ch, url) }] *)
Definition spawn (envs : nat → netenv) (urls : list string) : list goroutine :=
  imap (λ i url, (envs i, getResponseFromURL url)) urls.

Definition processURLs_start (envs : nat → netenv) (c : gocache.Cache) (t : Z)
    (urls : list string) : sys :=
  {| pool := spawn envs urls; cache := c; clock := t; results := [] |}.

(** The receiving loop ends, and [processURLs] returns, once it has
    received one result per goroutine. *)
Definition returned (s : sys) : option (list result) :=
  if bool_decide (length (results s) = length (pool s)) then Some (results s) else None.

Definition processURLs (envs : nat → netenv) (sched : list (nat * Z))
    (c : gocache.Cache) (t : Z) (urls : list string) : option (list result * gocache.Cache) :=
  match run sched (processURLs_start envs c t urls) with
  | Some s =>
      match returned s with
      | Some rs => Some (rs, cache s)
      | None => None
      end
  | None => None
  end.

(** What [numbersHandler] computes from the URLs of a request. *)
Definition Aggregate (envs : nat → netenv) (sched : list (nat * Z))
    (c : gocache.Cache) (t : Z) (urls : list string) : option (slice int) :=
  match processURLs envs sched c t urls with
  | Some (rs, _) => Some (processFinalResult rs)
  | None => None
  end.

(** * Definitions used to state the properties *)

(** The loop invariant of [processFinalResult]: the slice is allocated,
    holds no number twice, and holds exactly the keys of the map. *)
Definition seen_ok (st : gmap Z unit * slice int) : Prop :=
  is_nil st.2 = false ∧ NoDup (elems st.2) ∧ ∀ x, x ∈ elems st.2 ↔ is_Some (st.1 !! x).

(** What a cache lookup for [url] yields at time [now]: the stored numbers,
    or the nil slice when the key is absent, expired, or not a [[]int]. *)
Definition cached (c : gocache.Cache) (now : Z) (url : string) : slice int :=
  match gocache.Get c now url with
  | Some val => (assert_ints val).1
  | None => nil_slice
  end.

(** The ways one fetch can fail after the context check. *)
Inductive fetch_fails (e : netenv) (url : string) : Prop :=
| fails_request err :
    new_request e url = Err err → fetch_fails e url
| fails_transport req err :
    new_request e url = Ok req → client_do e req = Err err → fetch_fails e url
| fails_decode req resp err :
    new_request e url = Ok req → client_do e req = Ok resp →
    json_decode e resp = Err err → fetch_fails e url.

(** The fetch goes through and the body decodes to [p]. *)
Definition fetch_decodes (e : netenv) (url : string) (p : payload) : Prop :=
  ∃ req resp, new_request e url = Ok req ∧ client_do e req = Ok resp ∧
              json_decode e resp = Ok p.

Definition act {X} (ev : event X) : action := existT X ev.

(** The cache has no numbers for [url] from time [t] on: the key is
    absent, or its entry has expired before [t], or the entry holds an
    empty list (or no list of numbers at all). *)
Definition nothing_cached (c : gocache.Cache) (t : Z) (url : string) : Prop :=
  match gocache.items c !! url with
  | None => True
  | Some item =>
      (0 < gocache.Expiration item ∧ gocache.Expiration item < t)%Z ∨
      elems (assert_ints (gocache.Object item)).1 = []
  end.

(** A fetcher performs at most this many events. *)
Definition fuel : nat := 9.

(** The bookkeeping for a pool. Each goroutine is followed by a ghost
    record: what it is expected to send ([gV]), a bound on the events it
    has left ([gfuel]), and what it has sent so far ([gst]). [predicts]
    says that the code a goroutine has left keeps to its record whatever
    the schedule, as long as events happen at times in [T] and on caches
    in [I], and that its own cache writes keep the cache in [I]. *)
Section pool_model.

Variable T : Z → Prop.
Variable I : gocache.Cache → Prop.

Fixpoint predicts (e : netenv) (V : result → Prop) (n : nat) (st : option result)
    (p : prog unit) {struct p} : Prop :=
  match p with
  | Ret _ => is_Some st
  | Vis ev k =>
      match n with
      | O => False
      | S n' =>
          match sent_of ev with
          | Some v =>
              st = None ∧ V v ∧
              ∀ t c, predicts e V n' (Some v) (k (handle e t ev c).1)
          | None =>
              ∀ t c, T t → I c →
                I (handle e t ev c).2 ∧ predicts e V n' st (k (handle e t ev c).1)
          end
      end
  end.

Record ghost := { gV : result → Prop; gfuel : nat; gst : option result }.

Definition tracks (g : goroutine) (gh : ghost) : Prop :=
  predicts g.1 (gV gh) (gfuel gh) (gst gh) g.2 ∧ ∀ v, gst gh = Some v → gV gh v.

Definition inv (s : sys) (gs : list ghost) : Prop :=
  I (cache s) ∧ Forall2 tracks (pool s) gs ∧ results s ≡ₚ omap gst gs.

Definition total_fuel (gs : list ghost) : nat := sum_list (gfuel <$> gs).

End pool_model.

Definition init_ghosts (Vs : list (result → Prop)) : list ghost :=
  (λ V, {| gV := V; gfuel := fuel; gst := None |}) <$> Vs.

(** ** Concrete inputs used to run the theorems *)

Definition no_request : string → goret request := λ _, Err "bad url"%string.
Definition refuse : request → goret response := λ _, Err "connection refused"%string.
Definition serve : request → goret response := λ req, Ok {| Body := req_url req |}.
Definition garbled : response → goret payload := λ _, Err "invalid character"%string.

(** The world of the tests: the server at [primes] answers [{1,2,7}],
    the one at [fibo] answers [{1,5}], any other answers no numbers. *)
Definition decode_demo : response → goret payload :=
  λ resp,
    if String.eqb (Body resp) "primes" then Ok {| Numbers := mk_slice [1; 2; 7]%Z |}
    else if String.eqb (Body resp) "fibo" then Ok {| Numbers := mk_slice [1; 5]%Z |}
    else Ok {| Numbers := mk_slice [] |}.

Definition env_up : netenv :=
  {| ctx_done := false; new_request := λ url, Ok {| req_url := url |};
     client_do := serve; json_decode := decode_demo |}.
Definition env_down : netenv :=
  {| ctx_done := false; new_request := λ url, Ok {| req_url := url |};
     client_do := refuse; json_decode := decode_demo |}.
Definition env_garbled : netenv :=
  {| ctx_done := false; new_request := λ url, Ok {| req_url := url |};
     client_do := serve; json_decode := garbled |}.
Definition env_late : netenv :=
  {| ctx_done := true; new_request := λ url, Ok {| req_url := url |};
     client_do := serve; json_decode := decode_demo |}.

(** What [updateCache] does to the cache when it runs with nothing in between. *)
Definition cache_put (c : gocache.Cache) (now : Z) (url : string) (numbers : slice int)
  : gocache.Cache :=
  (interp env_up now (updateCache url numbers) c).1.2.

(** Inputs for the individual claims. *)

Definition c1_envs : nat → netenv :=
  λ i, match i with 0 => env_up | 1 => env_down | _ => env_late end.
Definition c1_urls : list string := ["primes"; "fibo"; "squares"]%string.
Definition c1_sched : list (nat * Z) := [(1, 5%Z); (0, 5%Z); (2, 6%Z); (1, 7%Z); (2, 7%Z)].
Definition c1_state : sys :=
  default (processURLs_start c1_envs serverCache 0 c1_urls)
          (run c1_sched (processURLs_start c1_envs serverCache 0 c1_urls)).

Definition c3_cache : gocache.Cache :=
  (interp env_up 0 (updateCache "primes" (mk_slice [1; 2; 7]%Z)) serverCache).1.2.

Definition c4_cache : gocache.Cache :=
  cache_put (cache_put serverCache 0 "primes" (mk_slice [1; 5]%Z)) 0 "fibo" (mk_slice [6; 9]%Z).
Definition c4_sched : list (nat * Z) :=
  [(1, 1%Z); (0, 1%Z); (1, 2%Z); (1, 3%Z); (0, 3%Z); (0, 4%Z); (1, 5%Z); (0, 6%Z)].

(** Three fetches that fail, on a cache whose entry for [primes] has
    expired and whose only live entry is for a URL that is not requested. *)
Definition c7_envs : nat → netenv :=
  λ i, match i with 0 => env_down | 1 => env_garbled | _ => env_late end.
Definition c7_cache : gocache.Cache :=
  cache_put (cache_put serverCache 0 "primes" (mk_slice [1; 2; 7]%Z))
            5 "cubes" (mk_slice [8; 27]%Z).
Definition c7_time : Z := cacheExpiration + 1.

Definition c8_urls : list string := ["primes"; "fibo"]%string.
Definition c8_payloads : list payload :=
  [ {| Numbers := mk_slice [1; 2; 7]%Z |}; {| Numbers := mk_slice [1; 5]%Z |} ].
Definition c8_sched1 : list (nat * Z) := replicate 9 (0, 1%Z) ++ replicate 9 (1, 1%Z).
Definition c8_sched2 : list (nat * Z) :=
  replicate 4 (1, 2%Z) ++ replicate 6 (0, 2%Z) ++ replicate 5 (1, 3%Z) ++ replicate 3 (0, 4%Z).
Definition c8_cache2 : gocache.Cache :=
  default serverCache (snd <$> processURLs (λ _, env_up) c8_sched1 serverCache 0 c8_urls).

Definition c10_cache : gocache.Cache :=
  {| gocache.defaultExpiration := cacheExpiration;
     gocache.items := {[ "primes"%string :=
                           {| gocache.Object := any_other "string";
                              gocache.Expiration := 0 |} ]} |}.

(** Two fetchers for the same URL: the first gets [{1,2,7}] from the
    network and overwrites the cache entry; the second finds the transport
    down and falls back to the cache, which holds [{1,5}] for the URL. *)
Definition c9_envs : nat → netenv := λ i, match i with 0 => env_up | _ => env_down end.
Definition c9_urls : list string := ["primes"; "primes"]%string.
Definition c9_cache : gocache.Cache := cache_put serverCache 0 "primes" (mk_slice [1; 5]%Z).

(** The first fetcher runs up to and including [serverCache.Delete]; then
    the second runs to its end; then the first finishes. *)
Definition c9_sched : list (nat * Z) :=
  replicate 6 (0, 1%Z) ++ replicate 7 (1, 2%Z) ++ replicate 3 (0, 3%Z).

(** The second fetcher runs first, then the first one. *)
Definition c9_sched_before : list (nat * Z) := replicate 7 (1, 1%Z) ++ replicate 9 (0, 2%Z).

(** The first fetcher runs first, then the second one. *)
Definition c9_sched_after : list (nat * Z) := replicate 9 (0, 1%Z) ++ replicate 7 (1, 2%Z).

Definition cached_primes (s : sys) : slice int := cached (cache s) (clock s) "primes".

(** * The HTTP handler *)

(** The parts of an [*http.Request] that [numbersHandler] reads.
    [URL_Query] is the value of [r.URL.Query()], a [map[string][]string]:
    for each key the values in the order they have in the query string. *)
Record Request := {
  Method : string;
  URL_Path : string;
  URL_Query : gmap string (list string)
}.

(** What a handler has written to its [http.ResponseWriter]: the status
    code, the headers and the body. *)
Record ResponseRecorder := {
  Code : Z;
  HeaderMap : gmap string string;
  Written : string
}.

Definition MethodGet : string := "GET".
Definition StatusOK : Z := 200.
Definition StatusNotFound : Z := 404.

Definition dquote : string := String "034"%char EmptyString.
Definition newline : string := String "010"%char EmptyString.

(** [http.Error] of Go's standard library, on a writer nothing was written
    to: it sets two headers, writes the status code and then the message
    followed by a newline. *)
Definition http_Error (msg : string) (code : Z) : ResponseRecorder :=
  {| Code := code;
     HeaderMap := <["X-Content-Type-Options"%string := "nosniff"%string]>
                    {[ "Content-Type"%string := "text/plain; charset=utf-8"%string ]};
     Written := msg +:+ newline |}.

(** [encoding/json] on a [[]int]: [null] for the nil slice, else the
    numbers in decimal, separated by commas, in brackets. *)
Definition json_ints (s : slice int) : string :=
  match s with
  | nil_slice => "null"
  | mk_slice l => "[" +:+ String.concat "," (pretty <$> l) +:+ "]"
  end.

(** [json.NewEncoder(w).Encode(respPayload)] for a [payload], whose only
    field has the tag [json:"numbers"]; [Encode] ends the value with a
    newline. *)
Definition json_payload (p : payload) : string :=
  "{" +:+ dquote +:+ "numbers" +:+ dquote +:+ ":" +:+ json_ints (Numbers p) +:+ "}" +:+ newline.

(** [numbersHandler]. The goroutines that [processURLs] starts run under
    the schedule [sched]; the handler has returned when the result is
    [Some]. [queryValues["u"]] is the nil slice when the key is absent. *)
Definition numbersHandler (envs : nat → netenv) (sched : list (nat * Z))
    (c : gocache.Cache) (t : Z) (r : Request) : option (ResponseRecorder * gocache.Cache) :=
  if bool_decide (URL_Path r ≠ "/numbers"%string) then
    Some (http_Error "404 not found" StatusNotFound, c)
  else if bool_decide (Method r ≠ MethodGet) then
    Some (http_Error "method is not supported" StatusNotFound, c)
  else
    let queryValues := URL_Query r in
    let urls := default [] (queryValues !! "u"%string) in
    match processURLs envs sched c t urls with
    | Some (results, c') =>
        let sortedNumbers := processFinalResult results in
        let respPayload := {| Numbers := sortedNumbers |} in
        Some ({| Code := StatusOK;
                 HeaderMap := {[ "Content-Type"%string := "application/json"%string ]};
                 Written := json_payload respPayload |}, c')
    | None => None
    end.

(** * More definitions used to state properties *)

Definition mk_result (s : slice int) : result := {| data := {| Numbers := s |} |}.

(** The numbers of a result. *)
Definition numbers_of (r : result) : list Z := elems (Numbers (data r)).

(** The key of a cache event. *)
Definition cache_key {X} (ev : event X) : option string :=
  match ev with
  | CacheGet k | CacheDelete k | CacheAdd k _ _ => Some k
  | _ => None
  end.

Definition is_new_request {X} (ev : event X) : bool :=
  match ev with NewRequestWithContext _ => true | _ => false end.

Definition is_client_do {X} (ev : event X) : bool :=
  match ev with ClientDo _ => true | _ => false end.

Definition is_cache_get {X} (ev : event X) : bool :=
  match ev with CacheGet _ => true | _ => false end.

Definition is_send {X} (ev : event X) : bool :=
  match ev with ChanSend _ => true | _ => false end.

(** How many events of a trace a test accepts. *)
Definition count_events (f : ∀ X, event X → bool) (tr : list action) : nat :=
  length (filter (λ a, f _ (projT2 a) = true) tr).

(** Every entry of the cache is a non-empty [[]int]. *)
Definition cache_wf (c : gocache.Cache) : Prop :=
  ∀ k item, gocache.items c !! k = Some item →
            ∃ s, gocache.Object item = any_ints s ∧ 0 < len s.

(** A fetch that brings no new numbers: the context is done, the fetch
    fails, or the body decodes to no numbers. *)
Definition no_fresh (e : netenv) (url : string) : Prop :=
  ctx_done e = true ∨ fetch_fails e url ∨
  ∃ p, fetch_decodes e url p ∧ elems (Numbers p) = [].

(** Inputs for the examples of the handler. *)
Definition get_numbers (urls : list string) : Request :=
  {| Method := "GET"; URL_Path := "/numbers"; URL_Query := {[ "u"%string := urls ]} |}.

(** Three fetchers that bring no new numbers: the transport is down, the
    context is done, the body holds no numbers. *)
Definition x11_envs : nat → netenv :=
  λ i, match i with 0 => env_down | 1 => env_late | _ => env_up end.
Definition x11_urls : list string := ["primes"; "fibo"; "squares"]%string.
Definition x11_sched : list (nat * Z) :=
  replicate 7 (0, 1%Z) ++ replicate 4 (1, 1%Z) ++ replicate 7 (2, 2%Z).


(** Requests for the examples of the handler. *)
Definition post_numbers : Request :=
  {| Method := "POST"; URL_Path := "/numbers"; URL_Query := {[ "u"%string := c8_urls ]} |}.
Definition get_nums : Request :=
  {| Method := "GET"; URL_Path := "/nums"; URL_Query := {[ "u"%string := c8_urls ]} |}.

(** * Properties *)

(** ** The reducer *)
Section reducer.

Example processFinalResult_ex :
  processFinalResult [ints [1; 2; 7]; ints [1; 5]]%Z = mk_slice [1; 2; 5; 7]%Z.
Proof. vm_compute. reflexivity. Qed.

Implicit Types (m : gmap Z unit) (s : slice int) (l : list Z) (res : list result).

Lemma seen_ok_init : seen_ok (∅, mk_slice []).
Proof.
  split; [done|]. split; [constructor|].
  intros x. cbn. rewrite lookup_empty. split; [by intros ?%elem_of_nil | by intros [? ?]].
Qed.

Lemma add_number_ok st num :
  seen_ok st →
  seen_ok (add_number st num) ∧
  ∀ x, x ∈ elems (add_number st num).2 ↔ x ∈ elems st.2 ∨ x = num.
Proof.
  destruct st as [m s]. intros (Hnil & Hnd & Hm). unfold add_number, append.
  destruct (m !! num) as [[]|] eqn:Hnum; cbn in *.
  - split; [done|]. intros x. split; [tauto|].
    intros [?| ->]; [done|]. apply Hm. eauto.
  - assert (num ∉ elems s) as Hfresh.
    { intros Hin%Hm. rewrite Hnum in Hin. by destruct Hin. }
    split.
    + split; [done|]. split.
      * apply NoDup_app. split; [done|]. split; [|apply NoDup_singleton].
        intros x Hx ->%list_elem_of_singleton. done.
      * intros x. cbn. rewrite elem_of_app, list_elem_of_singleton, Hm.
        destruct (decide (x = num)) as [->|Hne].
        -- rewrite lookup_insert_eq. split; eauto.
        -- rewrite lookup_insert_ne by done. split; [intros [?|?]; done | auto].
    + intros x. by rewrite elem_of_app, list_elem_of_singleton.
Qed.

Lemma add_result_ok r st :
  seen_ok st →
  seen_ok (add_result st r) ∧
  ∀ x, x ∈ elems (add_result st r).2 ↔ x ∈ elems st.2 ∨ x ∈ elems (Numbers (data r)).
Proof.
  unfold add_result. generalize (elems (Numbers (data r))) as l.
  intros l. revert st. induction l as [|num l IH]; intros st Hst; cbn.
  - split; [done|]. intros x. rewrite elem_of_nil. tauto.
  - destruct (add_number_ok st num Hst) as [Hst' Hel].
    destruct (IH _ Hst') as [Hst'' Hel'']. split; [done|].
    intros x. rewrite Hel'', Hel, elem_of_cons. tauto.
Qed.

Lemma foldl_add_result_ok res st :
  seen_ok st →
  seen_ok (foldl add_result st res) ∧
  ∀ x, x ∈ elems (foldl add_result st res).2 ↔
       x ∈ elems st.2 ∨ ∃ r, r ∈ res ∧ x ∈ elems (Numbers (data r)).
Proof.
  revert st. induction res as [|r res IH]; intros st Hst; cbn.
  - split; [done|]. intros x. split; [auto|].
    intros [?|(r & Hr & _)]; [done|]. by apply elem_of_nil in Hr.
  - destruct (add_result_ok r st Hst) as [Hst' Hel].
    destruct (IH _ Hst') as [Hst'' Hel'']. split; [done|].
    intros x. rewrite Hel'', Hel. split.
    + intros [[?|?]|(r' & ? & ?)]; [by left| |].
      * right. exists r. split; [left|done].
      * right. exists r'. split; [by right|done].
    + intros [?|(r' & Hr' & ?)]; [by left; left|].
      apply elem_of_cons in Hr' as [->|?]; [by left; right|].
      right. eauto.
Qed.

(** A sorted list without repetition is strictly increasing. *)
Lemma Sorted_le_NoDup_lt l : Sorted Z.le l → NoDup l → StronglySorted Z.lt l.
Proof.
  intros Hs%Sorted_StronglySorted; [|apply _].
  induction Hs as [|x l _ IH Hfa]; intros Hnd; [constructor|].
  apply NoDup_cons in Hnd as [Hx Hnd]. constructor; [auto|].
  rewrite Forall_forall in *. intros y Hy.
  specialize (Hfa y Hy). assert (x ≠ y) by (intros ->; done). lia.
Qed.

Lemma StronglySorted_lt_NoDup l : StronglySorted Z.lt l → NoDup l.
Proof.
  induction 1 as [|x l _ IH Hfa]; [constructor|].
  apply NoDup_cons. split; [|done].
  intros Hx. rewrite Forall_forall in Hfa. specialize (Hfa x Hx). lia.
Qed.

(** Two strictly increasing lists with the same members are the same list. *)
Lemma StronglySorted_lt_ext l1 l2 :
  StronglySorted Z.lt l1 → StronglySorted Z.lt l2 →
  (∀ x, x ∈ l1 ↔ x ∈ l2) → l1 = l2.
Proof.
  intros H1 H2 Hel.
  apply (StronglySorted_unique_strong Z.lt); [intros; lia|done|done|].
  apply NoDup_Permutation; auto using StronglySorted_lt_NoDup.
Qed.

(** What [processFinalResult] returns, in full. *)
Lemma processFinalResult_spec res :
  ∃ l, processFinalResult res = mk_slice l ∧
       StronglySorted Z.lt l ∧
       ∀ x, x ∈ l ↔ ∃ r, r ∈ res ∧ x ∈ elems (Numbers (data r)).
Proof.
  unfold processFinalResult.
  destruct (foldl_add_result_ok res (∅, mk_slice []) seen_ok_init) as [Hok Hel].
  destruct (foldl add_result (∅, mk_slice []) res) as [m s].
  destruct Hok as (Hnil & Hnd & _). cbn in *.
  destruct s as [|l]; [done|]. cbn in *.
  exists (merge_sort Z.le l). split; [done|]. split.
  - apply Sorted_le_NoDup_lt; [apply (Sorted_merge_sort Z.le)|].
    by rewrite merge_sort_Permutation.
  - intros x. rewrite merge_sort_Permutation, Hel, elem_of_nil. tauto.
Qed.

Lemma processFinalResult_Permutation res res' :
  res ≡ₚ res' → processFinalResult res = processFinalResult res'.
Proof.
  intros Hp.
  destruct (processFinalResult_spec res) as (l & -> & Hs & Hel).
  destruct (processFinalResult_spec res') as (l' & -> & Hs' & Hel').
  f_equal. apply StronglySorted_lt_ext; [done..|].
  intros x. rewrite Hel, Hel'. by setoid_rewrite Hp.
Qed.

Lemma processFinalResult_all_empty res :
  Forall (λ r, elems (Numbers (data r)) = []) res →
  processFinalResult res = mk_slice [].
Proof.
  intros Hall. destruct (processFinalResult_spec res) as (l & -> & _ & Hel).
  f_equal. destruct l as [|x l]; [done|].
  destruct (proj1 (Hel x)) as (r & Hr & Hx); [left|].
  rewrite Forall_forall in Hall. rewrite (Hall r Hr) in Hx. by apply elem_of_nil in Hx.
Qed.

End reducer.

(** ** One goroutine *)

Lemma interp_bind {A B} e now (p : prog A) (f : A → prog B) c :
  interp e now (bind p f) c =
  let '(a, c', tr) := interp e now p c in
  let '(b, c'', tr') := interp e now (f a) c' in
  (b, c'', tr ++ tr').
Proof.
  revert c. induction p as [a|X ev k IH]; intros c; cbn.
  - by destruct (interp e now (f a) c) as [[b c''] tr'].
  - destruct (handle e now ev c) as [x c']. rewrite IH.
    destruct (interp e now (k x) c') as [[a c''] tr].
    by destruct (interp e now (f a) c'') as [[b c3] tr'].
Qed.

Lemma interp_getResultFromCache e now c url :
  interp e now (getResultFromCache url) c = (cached c now url, c, [act (CacheGet url)]).
Proof. reflexivity. Qed.

Lemma interp_updateCache e now c url numbers :
  interp e now (updateCache url numbers) c =
  (tt,
   (gocache.Add (gocache.Delete c url) now url (any_ints numbers) cacheExpiration).2,
   [act (CacheDelete url); act (CacheAdd url (any_ints numbers) cacheExpiration)]).
Proof.
  cbn. by destruct (gocache.Add _ _ _ _ _) as [err c'].
Qed.

Lemma gocache_put_items c now url numbers :
  gocache.items (gocache.Add (gocache.Delete c url) now url (any_ints numbers) cacheExpiration).2 =
  <[url := {| gocache.Object := any_ints numbers;
              gocache.Expiration := (now + cacheExpiration)%Z |}]> (gocache.items c).
Proof.
  unfold gocache.Add, gocache.get, gocache.Delete. cbn.
  rewrite lookup_delete_eq. cbn. by rewrite insert_delete_eq.
Qed.

Lemma gocache_put_defaultExpiration c now url numbers :
  gocache.defaultExpiration
    (gocache.Add (gocache.Delete c url) now url (any_ints numbers) cacheExpiration).2 =
  gocache.defaultExpiration c.
Proof.
  unfold gocache.Add, gocache.get, gocache.Delete. cbn.
  by rewrite lookup_delete_eq.
Qed.

(** ** A pool of goroutines *)

Section list_facts.
Context {A B : Type}.
Implicit Types (l : list A) (f : A → option B) (g : A → nat).

Lemma omap_insert_same f l i x y :
  l !! i = Some x → f y = f x → omap f (<[i:=y]> l) = omap f l.
Proof.
  revert i. induction l as [|a l IH]; intros [|i] Hi Hf; simplify_eq/=; [by rewrite Hf|].
  by rewrite (IH i).
Qed.

Lemma omap_insert_new f l i x y v :
  l !! i = Some x → f x = None → f y = Some v → omap f (<[i:=y]> l) ≡ₚ omap f l ++ [v].
Proof.
  revert i. induction l as [|a l IH]; intros [|i] Hi Hx Hy; simplify_eq/=.
  - destruct (f x); [done|]. destruct (f y); simplify_eq. apply Permutation_cons_append.
  - destruct (f a); cbn; [f_equiv|]; by apply (IH i).
Qed.

Lemma sum_list_insert_lt g l i x y :
  l !! i = Some x → S (g y) ≤ g x →
  S (sum_list (g <$> <[i:=y]> l)) ≤ sum_list (g <$> l).
Proof.
  revert i. induction l as [|a l IH]; intros [|i] Hi Hlt; simplify_eq/=; [lia|].
  specialize (IH i Hi Hlt). lia.
Qed.

Lemma omap_length_le f l : length (omap f l) ≤ length l.
Proof. induction l as [|b l IH]; cbn; [lia|]. destruct (f b); cbn; lia. Qed.

Lemma omap_full f l :
  length (omap f l) = length l → f <$> l = Some <$> omap f l.
Proof.
  induction l as [|a l IH]; [done|]. cbn.
  pose proof (omap_length_le f l) as Hle.
  destruct (f a) as [b|]; cbn; intros Hlen; [|lia].
  f_equal. apply IH. lia.
Qed.

Lemma omap_short f l :
  length (omap f l) < length l → ∃ i x, l !! i = Some x ∧ f x = None.
Proof.
  induction l as [|a l IH]; cbn; [lia|].
  destruct (f a) as [b|] eqn:Hfa; cbn; intros Hlen.
  - destruct IH as (i & x & Hi & Hx); [lia|]. by exists (S i), x.
  - by exists 0, a.
Qed.
End list_facts.

(** ** The pool invariant *)
Section pool.

Variable T : Z → Prop.
Variable I : gocache.Cache → Prop.

Lemma handle_send e t {X} (ev : event X) c r :
  sent_of ev = Some r → (handle e t ev c).2 = c.
Proof. by destruct ev. Qed.

Lemma step_at_inv i t s s' gs :
  inv T I s gs → T t → step_at i t s = Some s' →
  ∃ gs', inv T I s' gs' ∧ gV <$> gs' = gV <$> gs ∧ S (total_fuel gs') ≤ total_fuel gs.
Proof.
  intros (HI & Hpool & Hres) Ht Hstep. unfold step_at in Hstep.
  destruct (pool s !! i) as [[e p]|] eqn:Hi; [|done].
  destruct p as [u|X ev k]; [done|].
  case_bool_decide; [|done].
  destruct (Forall2_lookup_l _ _ _ _ _ Hpool Hi) as ([V n st] & Hgi & Hpred & HV).
  cbn in Hpred, HV. destruct n as [|n]; [done|].
  destruct (handle e t ev (cache s)) as [x c'] eqn:Hh.
  destruct (sent_of ev) as [r|] eqn:Hsent.
  - case_bool_decide; [|done]. simplify_eq. destruct Hpred as (-> & HVr & Hk).
    exists (<[i := {| gV := V; gfuel := n; gst := Some r |}]> gs). split; [split; [|split]|split]; cbn.
    + pose proof (handle_send e t ev (cache s) r Hsent) as Hc. by rewrite Hh in Hc; cbn in Hc; subst.
    + apply Forall2_insert; [done|]. split; cbn.
      * specialize (Hk t (cache s)). by rewrite Hh in Hk.
      * by intros ? [= <-].
    + rewrite Hres. symmetry. by eapply omap_insert_new.
    + rewrite list_fmap_insert. cbn. apply list_insert_id. by rewrite list_lookup_fmap, Hgi.
    + by apply (sum_list_insert_lt gfuel _ _ _ _ Hgi).
  - simplify_eq. destruct (Hpred t (cache s) Ht HI) as [HI' Hk]. rewrite Hh in HI', Hk.
    exists (<[i := {| gV := V; gfuel := n; gst := st |}]> gs). split; [split; [|split]|split]; cbn.
    + done.
    + apply Forall2_insert; [done|]. by split.
    + rewrite Hres. by erewrite omap_insert_same.
    + rewrite list_fmap_insert. cbn. apply list_insert_id. by rewrite list_lookup_fmap, Hgi.
    + by apply (sum_list_insert_lt gfuel _ _ _ _ Hgi).
Qed.

Lemma run_inv sched s s' gs :
  inv T I s gs → Forall (λ it, T it.2) sched → run sched s = Some s' →
  ∃ gs', inv T I s' gs' ∧ gV <$> gs' = gV <$> gs ∧
         length sched + total_fuel gs' ≤ total_fuel gs.
Proof.
  revert s gs. induction sched as [|[i t] sched IH]; intros s gs Hinv HT Hrun; cbn in *.
  - simplify_eq. exists gs. split; [done|]. split; [done|]. lia.
  - apply Forall_cons in HT as [Ht HT]. cbn in Ht.
    destruct (step_at i t s) as [s1|] eqn:Hstep; [|done].
    destruct (step_at_inv _ _ _ _ _ Hinv Ht Hstep) as (gs1 & Hinv1 & HV1 & Hf1).
    destruct (IH _ _ Hinv1 HT Hrun) as (gs' & Hinv' & HV' & Hf').
    exists gs'. split; [done|]. split; [congruence|]. lia.
Qed.

Lemma inv_results_le s gs : inv T I s gs → length (results s) ≤ length (pool s).
Proof.
  intros (_ & Hpool & Hres). rewrite Hres, (Forall2_length _ _ _ Hpool).
  apply omap_length_le.
Qed.

(** As long as [processURLs] has not returned, some goroutine can move. *)
Lemma inv_progress s gs :
  inv T I s gs → returned s = None → ∃ i, is_Some (step_at i (clock s) s).
Proof.
  intros Hinv Hret. pose proof (inv_results_le _ _ Hinv) as Hle.
  destruct Hinv as (HI & Hpool & Hres).
  unfold returned in Hret. case_bool_decide as Hlen; [done|].
  destruct (omap_short gst gs) as (i & [V n st] & Hi & Hst).
  { rewrite <-Hres, <-(Forall2_length _ _ _ Hpool). lia. }
  cbn in Hst. subst st.
  destruct (Forall2_lookup_r _ _ _ _ _ Hpool Hi) as ([e p] & Hpi & Hpred & _).
  cbn in Hpred. exists i. unfold step_at. rewrite Hpi.
  destruct p as [u|X ev k]; [by destruct Hpred|].
  rewrite bool_decide_eq_true_2 by lia.
  destruct (handle e (clock s) ev (cache s)) as [x c'].
  destruct (sent_of ev); [|done].
  rewrite bool_decide_eq_true_2 by lia. done.
Qed.

(** When [processURLs] returns, every goroutine has sent, and the results
    are what the ghost records say, in some order. *)
Lemma inv_returned s gs rs :
  inv T I s gs → returned s = Some rs →
  ∃ vs, rs ≡ₚ vs ∧ Forall2 (λ gh v, gV gh v) gs vs.
Proof.
  intros (HI & Hpool & Hres) Hret. unfold returned in Hret.
  case_bool_decide as Hlen; [|done]. simplify_eq.
  exists (omap gst gs). split; [done|].
  assert (gst <$> gs = Some <$> omap gst gs) as Hfull.
  { apply omap_full. by rewrite <-Hres, Hlen, (Forall2_length _ _ _ Hpool). }
  assert (Forall (λ gh, ∀ v, gst gh = Some v → gV gh v) gs) as HV.
  { apply Forall_forall. intros gh Hgh.
    apply list_elem_of_lookup in Hgh as [i Hi].
    destruct (Forall2_lookup_r _ _ _ _ _ Hpool Hi) as (g & _ & _ & HV). done. }
  revert Hfull HV. generalize (omap gst gs) as vs. clear.
  induction gs as [|gh gs IH]; intros [|v vs] Hfull HV; simplify_eq/=; constructor.
  - apply Forall_cons in HV as [HV _]. auto.
  - apply Forall_cons in HV as [_ HV]. auto.
Qed.

End pool.

(** ** What one fetcher is known to send *)

Lemma cached_nothing_cached c t now url :
  nothing_cached c t url → (t ≤ now)%Z → elems (cached c now url) = [].
Proof.
  unfold nothing_cached, cached, gocache.Get, gocache.get. intros Hc Hnow.
  destruct (gocache.items c !! url) as [item|]; [|done].
  destruct Hc as [[Hpos Hexp]|Hempty].
  - rewrite (bool_decide_eq_true_2 _ Hpos).
    by rewrite (bool_decide_eq_true_2 (gocache.Expiration item < now)%Z) by lia.
  - by destruct (_ && _).
Qed.

Ltac predicts_step := cbn; intros; split; [try done|].

(** Whatever the outside world answers, a fetcher sends once. *)
Lemma predicts_any e url :
  predicts (λ _, True) (λ _, True) e (λ _, True) fuel None (getResponseFromURL url).
Proof.
  predicts_step. destruct (ctx_done e).
  { do 2 predicts_step. cbn. done. }
  do 2 predicts_step. destruct (new_request e url) as [req|err].
  2:{ do 2 predicts_step. cbn. done. }
  predicts_step. destruct (client_do e req) as [resp|err].
  2:{ do 2 predicts_step. cbn. done. }
  predicts_step. destruct (json_decode e resp) as [p|err].
  2:{ do 2 predicts_step. cbn. split; [done|]. split; [done|]. intros. by predicts_step. }
  cbn. case_bool_decide.
  - do 2 predicts_step. cbn. split; [done|]. split; [done|]. intros. by predicts_step.
  - cbn. split; [done|]. split; [done|]. intros. by predicts_step.
Qed.

(** With the context done, a fetcher reads the cache and sends what it read. *)
Lemma predicts_done T c0 e url :
  ctx_done e = true →
  predicts T (λ c, c = c0) e
    (λ v, ∃ t, T t ∧ v = {| data := {| Numbers := cached c0 t url |} |})
    fuel None (getResponseFromURL url).
Proof.
  intros Hdone. predicts_step. rewrite Hdone.
  predicts_step. predicts_step. cbn. subst.
  split; [done|]. split; [|done]. eauto.
Qed.

(** A fetch that falls back to the cache writes nothing, so it keeps
    every cache invariant, and it sends what the cache holds for its URL
    at the time of the lookup. *)
Lemma predicts_fallback T (I : gocache.Cache → Prop) e url :
  ctx_done e = true ∨ fetch_fails e url →
  predicts T I e (λ v, ∃ t c, T t ∧ I c ∧ v = mk_result (cached c t url))
    fuel None (getResponseFromURL url).
Proof.
  intros Hfail. predicts_step. destruct (ctx_done e) eqn:Hdone.
  { do 2 predicts_step. cbn. split; [done|]. split; [|done]. eauto. }
  destruct Hfail as [?|Hfail]; [congruence|].
  do 2 predicts_step. destruct Hfail as [err Hreq|req err Hreq Hdo|req resp err Hreq Hdo Hdec].
  - rewrite Hreq. do 2 predicts_step. cbn.
    split; [done|]. split; [|done]. eauto.
  - rewrite Hreq. predicts_step. rewrite Hdo. do 2 predicts_step. cbn.
    split; [done|]. split; [|done]. eauto.
  - rewrite Hreq. predicts_step. rewrite Hdo. predicts_step. rewrite Hdec.
    do 2 predicts_step. cbn.
    split; [done|]. split; [eauto|]. intros. by predicts_step.
Qed.

(** A fetch that goes through sends the decoded payload, whatever the
    cache holds. *)
Lemma predicts_decodes T e url p :
  ctx_done e = false → fetch_decodes e url p →
  predicts T (λ _, True) e (λ v, v = {| data := p |}) fuel None (getResponseFromURL url).
Proof.
  intros Hdone (req & resp & Hreq & Hdo & Hdec).
  predicts_step. rewrite Hdone. do 2 predicts_step. rewrite Hreq.
  predicts_step. rewrite Hdo. predicts_step. rewrite Hdec.
  cbn. case_bool_decide.
  - do 2 predicts_step. cbn. split; [done|]. split; [done|]. intros. by predicts_step.
  - cbn. split; [done|]. split; [done|]. intros. by predicts_step.
Qed.

(** ** Runs of [processURLs] *)

Lemma init_ghosts_gV Vs : gV <$> init_ghosts Vs = Vs.
Proof. unfold init_ghosts. rewrite <-list_fmap_compose. apply list_fmap_id. Qed.

Lemma init_ghosts_fuel Vs : total_fuel (init_ghosts Vs) = fuel * length Vs.
Proof. unfold total_fuel, init_ghosts. induction Vs as [|V Vs IH]; cbn in *; lia. Qed.

Lemma processURLs_start_inv T I Vs envs c t urls :
  length Vs = length urls →
  (∀ i url V, urls !! i = Some url → Vs !! i = Some V →
              predicts T I (envs i) V fuel None (getResponseFromURL url)) →
  I c →
  inv T I (processURLs_start envs c t urls) (init_ghosts Vs).
Proof.
  intros Hlen Hpred HI. split; [done|]. split; cbn.
  - apply Forall2_same_length_lookup. split.
    + unfold spawn, init_ghosts. by rewrite length_imap, length_fmap.
    + intros i [e p] gh Hi Hgh. unfold spawn in Hi. unfold init_ghosts in Hgh.
      rewrite list_lookup_imap in Hi. rewrite list_lookup_fmap in Hgh.
      destruct (urls !! i) as [url|] eqn:Hurl; [|done].
      destruct (Vs !! i) as [V|] eqn:HV; [|done]. simplify_eq/=.
      split; cbn; [by eapply Hpred|done].
  - unfold init_ghosts. clear. induction Vs as [|V Vs IH]; [done|]. cbn. done.
Qed.

(** The general fact about a call of [processURLs]: if each fetcher keeps
    to what is expected of it, then the call, once it returns, returns one
    expected result per fetcher, in some order, and the cache is still in
    [I]; and the schedule is no longer than [fuel] events per URL. *)
Lemma processURLs_inv T I Vs envs sched c t urls s :
  length Vs = length urls →
  (∀ i url V, urls !! i = Some url → Vs !! i = Some V →
              predicts T I (envs i) V fuel None (getResponseFromURL url)) →
  I c →
  Forall (λ it, T it.2) sched →
  run sched (processURLs_start envs c t urls) = Some s →
  ∃ gs, inv T I s gs ∧ gV <$> gs = Vs ∧ length (pool s) = length urls ∧
        length sched ≤ fuel * length urls.
Proof.
  intros Hlen Hpred HI HT Hrun.
  pose proof (processURLs_start_inv T I Vs envs c t urls Hlen Hpred HI) as Hinv.
  destruct (run_inv _ _ _ _ _ _ Hinv HT Hrun) as (gs & Hinv' & HV & Hfuel).
  exists gs. rewrite init_ghosts_gV in HV. rewrite init_ghosts_fuel in Hfuel.
  split; [done|]. split; [done|]. split; [|lia].
  destruct Hinv' as (_ & Hpool & _).
  by rewrite (Forall2_length _ _ _ Hpool), <-(length_fmap gV), HV.
Qed.

Lemma processURLs_results T I Vs envs sched c t urls rs c' :
  length Vs = length urls →
  (∀ i url V, urls !! i = Some url → Vs !! i = Some V →
              predicts T I (envs i) V fuel None (getResponseFromURL url)) →
  I c →
  Forall (λ it, T it.2) sched →
  processURLs envs sched c t urls = Some (rs, c') →
  I c' ∧ ∃ vs, rs ≡ₚ vs ∧ Forall2 (λ V v, V v) Vs vs.
Proof.
  intros Hlen Hpred HI HT Hproc. unfold processURLs in Hproc.
  destruct (run sched _) as [s|] eqn:Hrun; [|done].
  destruct (returned s) as [rs'|] eqn:Hret; [|done]. simplify_eq.
  destruct (processURLs_inv T I Vs envs sched c t urls s Hlen Hpred HI HT Hrun)
    as (gs & Hinv & HV & _).
  split; [by destruct Hinv|].
  destruct (inv_returned _ _ _ _ _ Hinv Hret) as (vs & Hperm & Hall).
  exists vs. split; [done|]. rewrite <-HV. by apply Forall2_fmap_l.
Qed.

Lemma step_at_clock i t s s' : step_at i t s = Some s' → clock s' = t.
Proof.
  unfold step_at. destruct (pool s !! i) as [[e [u|X ev k]]|]; [done| |done].
  case_bool_decide; [|done]. destruct (handle e t ev (cache s)) as [x c'].
  destruct (sent_of ev); [case_bool_decide|]; by intros [= <-].
Qed.

Lemma step_at_clock_le i t s s' : step_at i t s = Some s' → (clock s ≤ t)%Z.
Proof.
  unfold step_at. destruct (pool s !! i) as [[e [u|X ev k]]|]; [done| |done].
  by case_bool_decide.
Qed.

(** The clock never runs backwards: every event of a run happens at or
    after the time the run started. *)
Lemma run_clock_le sched s s' :
  run sched s = Some s' → Forall (λ it, (clock s ≤ it.2)%Z) sched.
Proof.
  revert s. induction sched as [|[i t] sched IH]; intros s Hrun; [constructor|].
  cbn in Hrun. destruct (step_at i t s) as [s1|] eqn:Hstep; [|done].
  pose proof (step_at_clock_le _ _ _ _ Hstep) as Hle.
  pose proof (step_at_clock _ _ _ _ Hstep) as Hclock.
  constructor; [done|]. eapply Forall_impl; [by apply (IH s1)|].
  cbn. intros it Hit. lia.
Qed.

(** From any state the invariant allows, [processURLs] can be run to its
    return, even with the clock standing still. *)
Lemma inv_completes T I s gs :
  inv T I s gs → T (clock s) →
  ∃ sched s' rs, run sched s = Some s' ∧ returned s' = Some rs ∧
                 Forall (λ it, it.2 = clock s) sched.
Proof.
  remember (total_fuel gs) as n eqn:Hn. revert s gs Hn.
  induction (lt_wf n) as [n _ IH]. intros s gs -> Hinv Hnow.
  destruct (returned s) as [rs|] eqn:Hret.
  { by exists [], s, rs. }
  destruct (inv_progress _ _ _ _ Hinv Hret) as (i & s1 & Hstep).
  destruct (step_at_inv _ _ i (clock s) s s1 gs Hinv) as (gs1 & Hinv1 & _ & Hfuel); [done..|].
  pose proof (step_at_clock _ _ _ _ Hstep) as Hclock.
  destruct (IH (total_fuel gs1)) with (s := s1) (gs := gs1)
    as (sched & s' & rs & Hrun & Hret' & Hsched); [lia|done|done|by rewrite Hclock|].
  exists ((i, clock s) :: sched), s', rs. cbn. rewrite Hstep.
  split; [done|]. split; [done|]. constructor; [done|]. by rewrite <-Hclock.
Qed.

Lemma run_app sched1 sched2 s :
  run (sched1 ++ sched2) s = run sched1 s ≫= run sched2.
Proof.
  revert s. induction sched1 as [|[i t] sched1 IH]; intros s; cbn; [done|].
  destruct (step_at i t s); cbn; [apply IH|done].
Qed.

(** * The claims *)

(** ** C1 *)

Lemma returned_Some s rs :
  returned s = Some rs → rs = results s ∧ length rs = length (pool s).
Proof. unfold returned. case_bool_decide; [|done]. by intros [= <-]. Qed.

Lemma Forall_trivial {A} (l : list A) : Forall (λ _, True) l.
Proof. by apply Forall_true. Qed.

(** C1. For every list of URLs, whatever the fetches do and in whatever
    order the goroutines run: [processURLs] never holds more results than
    URLs; when it returns it returns exactly one result per URL; as long as
    it has not returned some goroutine can move; a run has at most [fuel]
    events per URL; and every run can be continued to a return with one
    result per URL. *)
Theorem processURLs_one_result_per_source
    (envs : nat → netenv) (sched : list (nat * Z)) (c : gocache.Cache) (t : Z)
    (urls : list string) (s : sys) :
  run sched (processURLs_start envs c t urls) = Some s →
  length (results s) ≤ length urls ∧
  (∀ rs, returned s = Some rs → length rs = length urls) ∧
  (returned s = None → ∃ i, is_Some (step_at i (clock s) s)) ∧
  length sched ≤ fuel * length urls ∧
  ∃ sched' rs c',
    processURLs envs (sched ++ sched') c t urls = Some (rs, c') ∧
    length rs = length urls.
Proof.
  intros Hrun.
  set (Vs := replicate (length urls) (λ _ : result, True)).
  assert (length Vs = length urls) as Hlen by apply length_replicate.
  assert (∀ i url V, urls !! i = Some url → Vs !! i = Some V →
            predicts (λ _, True) (λ _, True) (envs i) V fuel None (getResponseFromURL url))
    as Hpred.
  { intros i url V _ [-> _]%lookup_replicate. apply predicts_any. }
  destruct (processURLs_inv _ _ Vs envs sched c t urls s Hlen Hpred Logic.I
              (Forall_trivial _) Hrun) as (gs & Hinv & _ & Hpool & Hfuel).
  split; [|split; [|split; [|split]]].
  - rewrite <-Hpool. by eapply inv_results_le.
  - intros rs [_ Hret]%returned_Some. congruence.
  - by eapply inv_progress.
  - done.
  - destruct (inv_completes _ _ _ _ Hinv Logic.I) as (sched' & s' & rs & Hrun' & Hret' & _).
    assert (run (sched ++ sched') (processURLs_start envs c t urls) = Some s') as Hfull.
    { by rewrite run_app, Hrun. }
    destruct (processURLs_inv _ _ Vs envs _ c t urls s' Hlen Hpred Logic.I
                (Forall_trivial _) Hfull) as (_ & _ & _ & Hpool' & _).
    exists sched', rs, (cache s'). unfold processURLs. rewrite Hfull, Hret'.
    split; [done|]. apply returned_Some in Hret' as [_ Hret']. congruence.
Qed.

Lemma processURLs_one_result_per_source_witness :
  run c1_sched (processURLs_start c1_envs serverCache 0 c1_urls) = Some c1_state ∧
  length (results c1_state) ≤ length c1_urls ∧
  (∀ rs, returned c1_state = Some rs → length rs = length c1_urls) ∧
  (returned c1_state = None → ∃ i, is_Some (step_at i (clock c1_state) c1_state)) ∧
  length c1_sched ≤ fuel * length c1_urls ∧
  ∃ sched' rs c',
    processURLs c1_envs (c1_sched ++ sched') serverCache 0 c1_urls = Some (rs, c') ∧
    length rs = length c1_urls.
Proof.
  assert (run c1_sched (processURLs_start c1_envs serverCache 0 c1_urls) = Some c1_state)
    as Hrun by reflexivity.
  split; [exact Hrun|].
  exact (processURLs_one_result_per_source c1_envs c1_sched serverCache 0 c1_urls c1_state Hrun).
Defined.

(** ** C2 *)

(** C2. For every list of per-source results, [processFinalResult] returns
    an allocated slice that is strictly increasing (so it holds no number
    twice) and whose members are exactly the numbers that occur in some
    input list; on [{1,2,7}] and [{1,5}] it returns [[1,2,5,7]]. *)
Theorem processFinalResult_sorted_union (res : list result) :
  (∃ l, processFinalResult res = mk_slice l ∧
        StronglySorted Z.lt l ∧ NoDup l ∧
        ∀ x, x ∈ l ↔ ∃ r, r ∈ res ∧ x ∈ elems (Numbers (data r))) ∧
  processFinalResult [ints [1; 2; 7]; ints [1; 5]]%Z = mk_slice [1; 2; 5; 7]%Z.
Proof.
  split; [|by vm_compute].
  destruct (processFinalResult_spec res) as (l & Hl & Hs & Hel).
  exists l. auto using StronglySorted_lt_NoDup.
Qed.

(** ** C3 *)

Lemma makeGetRequestForURL_one_send e now c url :
  length (sent (interp e now (makeGetRequestForURL url) c).2) = 1.
Proof.
  unfold makeGetRequestForURL. cbn.
  destruct (new_request e url) as [req|err]; cbn; [|done].
  destruct (client_do e req) as [resp|err]; cbn; [|done].
  destruct (json_decode e resp) as [numbers|err]; cbn; [|done].
  case_bool_decide; cbn; [|done].
  by destruct (gocache.Add _ _ _ _ _) as [er c'].
Qed.

Lemma getResponseFromURL_one_send e now c url :
  length (sent (interp e now (getResponseFromURL url) c).2) = 1.
Proof.
  pose proof (makeGetRequestForURL_one_send e now c url) as Hm.
  unfold getResponseFromURL. cbn -[makeGetRequestForURL].
  destruct (ctx_done e); [done|].
  destruct (interp e now (makeGetRequestForURL url) c) as [[u c'] tr]. done.
Qed.

(** C3. A fetcher sends exactly one result whatever happens; and when the
    request cannot be built, the transport fails (which includes the
    deadline passing in flight), or the body does not decode, that one
    result is what the cache holds for the URL: the fetcher reads the cache
    once, for that URL, writes nothing to it, and returns normally. *)
Theorem fetch_failure_falls_back_to_cache
    (e : netenv) (now : Z) (c : gocache.Cache) (url : string) :
  length (sent (interp e now (makeGetRequestForURL url) c).2) = 1 ∧
  length (sent (interp e now (getResponseFromURL url) c).2) = 1 ∧
  (fetch_fails e url →
   ∃ tr, interp e now (makeGetRequestForURL url) c = (tt, c, tr) ∧
         sent tr = [ {| data := {| Numbers := cached c now url |} |} ] ∧
         omap (λ a, is_cache_read (projT2 a)) tr = [url] ∧
         Forall (λ a, is_cache_write (projT2 a) = false) tr).
Proof.
  split; [apply makeGetRequestForURL_one_send|].
  split; [apply getResponseFromURL_one_send|].
  intros [err Hreq|req err Hreq Hdo|req resp err Hreq Hdo Hdec];
    unfold makeGetRequestForURL; cbn; rewrite Hreq; cbn.
  - eexists. split; [done|]. split; [done|]. split; [done|].
    repeat constructor.
  - rewrite Hdo; cbn. eexists. split; [done|]. split; [done|]. split; [done|].
    repeat constructor.
  - rewrite Hdo; cbn. rewrite Hdec; cbn.
    eexists. split; [done|]. split; [done|]. split; [done|].
    repeat constructor.
Qed.

Lemma fetch_failure_falls_back_to_cache_witness :
  fetch_fails env_garbled "primes" ∧
  ∃ tr, interp env_garbled 5 (makeGetRequestForURL "primes") c3_cache = (tt, c3_cache, tr) ∧
        sent tr = [ ints [1; 2; 7]%Z ].
Proof.
  assert (fetch_fails env_garbled "primes") as Hfail.
  { by eapply (fails_decode env_garbled "primes" {| req_url := "primes" |}
                 {| Body := "primes" |} "invalid character"). }
  split; [exact Hfail|].
  destruct (fetch_failure_falls_back_to_cache env_garbled 5 c3_cache "primes")
    as (_ & _ & Hfb).
  destruct (Hfb Hfail) as (tr & Hrun & Hsent & _).
  exists tr. split; [exact Hrun|]. rewrite Hsent. reflexivity.
Defined.

(** ** C4 *)

Lemma processURLs_can_return T I Vs envs c t urls :
  length Vs = length urls →
  (∀ i url V, urls !! i = Some url → Vs !! i = Some V →
              predicts T I (envs i) V fuel None (getResponseFromURL url)) →
  I c → T t →
  ∃ sched rs c', Forall (λ it, T it.2) sched ∧
                 processURLs envs sched c t urls = Some (rs, c').
Proof.
  intros Hlen Hpred HI Ht.
  pose proof (processURLs_start_inv T I Vs envs c t urls Hlen Hpred HI) as Hinv.
  destruct (inv_completes _ _ _ _ Hinv Ht) as (sched & s' & rs & Hrun & Hret & Hsched).
  exists sched, rs, (cache s'). split.
  - eapply Forall_impl; [exact Hsched|]. cbn. by intros it ->.
  - unfold processURLs. by rewrite Hrun, Hret.
Qed.

Lemma cache_put_items c now url numbers :
  gocache.items (cache_put c now url numbers) =
  <[url := {| gocache.Object := any_ints numbers;
              gocache.Expiration := (now + cacheExpiration)%Z |}]> (gocache.items c).
Proof. unfold cache_put. rewrite interp_updateCache. apply gocache_put_items. Qed.

Lemma cached_cache_put c now url numbers t :
  cached (cache_put c now url numbers) t url =
  if bool_decide (0 < now + cacheExpiration)%Z && bool_decide (now + cacheExpiration < t)%Z
  then nil_slice else numbers.
Proof.
  unfold cached, gocache.Get, gocache.get. rewrite cache_put_items, lookup_insert_eq. cbn.
  by destruct (_ && _).
Qed.

Lemma cached_cache_put_fresh c now url numbers t :
  (t ≤ now + cacheExpiration)%Z → cached (cache_put c now url numbers) t url = numbers.
Proof.
  intros Ht. rewrite cached_cache_put.
  rewrite (bool_decide_eq_false_2 (now + cacheExpiration < t)%Z) by lia.
  by rewrite andb_false_r.
Qed.

Lemma cached_cache_put_ne c now url numbers t k :
  url ≠ k → cached (cache_put c now url numbers) t k = cached c t k.
Proof.
  intros Hne. unfold cached, gocache.Get, gocache.get.
  by rewrite cache_put_items, lookup_insert_ne.
Qed.

(** C4. A fetcher that finds the context done performs four events: the
    check, a log line, one cache lookup for its URL, and the send of what
    that lookup gave (the nil slice on a miss); it makes no network call
    and leaves the cache as it is. And when the cache was filled with
    [{1,5}] for one URL and [{6,9}] for another, and every fetcher finds
    the context done, every run of the two fetchers before the entries
    expire aggregates to [[1,5,6,9]], and such a run exists. *)
Theorem deadline_elapsed_resolves_from_cache :
  (∀ (e : netenv) (now : Z) (c : gocache.Cache) (url : string),
     ctx_done e = true →
     interp e now (getResponseFromURL url) c =
     (tt, c,
      [act CtxDone;
       act (LogPrintf "timeout reached for URL: %s. Fetching result from cache...");
       act (CacheGet url);
       act (ChanSend {| data := {| Numbers := cached c now url |} |})])) ∧
  (∀ (envs : nat → netenv) (c : gocache.Cache) (ta tb t : Z) (s1 s2 : string),
     (∀ i, ctx_done (envs i) = true) →
     s1 ≠ s2 →
     (t ≤ ta + cacheExpiration)%Z → (t ≤ tb + cacheExpiration)%Z →
     let c0 := cache_put (cache_put c ta s1 (mk_slice [1; 5]%Z)) tb s2 (mk_slice [6; 9]%Z) in
     let in_time (it : nat * Z) :=
       (it.2 ≤ ta + cacheExpiration)%Z ∧ (it.2 ≤ tb + cacheExpiration)%Z in
     (∀ sched out,
        Forall in_time sched →
        Aggregate envs sched c0 t [s1; s2] = Some out → out = mk_slice [1; 5; 6; 9]%Z) ∧
     (∃ sched,
        Forall in_time sched ∧
        Aggregate envs sched c0 t [s1; s2] = Some (mk_slice [1; 5; 6; 9]%Z))).
Proof.
  split.
  { intros e now c url Hdone. unfold getResponseFromURL. cbn. by rewrite Hdone. }
  intros envs c ta tb t s1 s2 Hdone Hne Hta Htb c0 in_time.
  set (T := λ x : Z, (x ≤ ta + cacheExpiration)%Z ∧ (x ≤ tb + cacheExpiration)%Z).
  set (V := λ (url : string) (v : result),
              ∃ x, T x ∧ v = {| data := {| Numbers := cached c0 x url |} |}).
  assert (∀ i url W, [s1; s2] !! i = Some url → [V s1; V s2] !! i = Some W →
            predicts T (λ c', c' = c0) (envs i) W fuel None (getResponseFromURL url))
    as Hpred.
  { intros [|[|i]] url W Hu HW; simplify_eq/=; by apply predicts_done. }
  assert (∀ sched out, Forall in_time sched →
            Aggregate envs sched c0 t [s1; s2] = Some out → out = mk_slice [1; 5; 6; 9]%Z)
    as Hall.
  { intros sched out Hsched Hagg. unfold Aggregate in Hagg.
    destruct (processURLs envs sched c0 t [s1; s2]) as [[rs c']|] eqn:Hproc; [|done].
    simplify_eq.
    destruct (processURLs_results T (λ c', c' = c0) [V s1; V s2] envs sched c0 t [s1; s2]
                rs c' eq_refl Hpred eq_refl Hsched Hproc) as (_ & vs & Hperm & Hvs).
    apply Forall2_cons_inv_l in Hvs as (v1 & vs' & (x1 & [Hx1 Hx1'] & ->) & Hvs & ->).
    apply Forall2_cons_inv_l in Hvs as (v2 & vs'' & (x2 & [Hx2 Hx2'] & ->) & Hvs & ->).
    apply Forall2_nil_inv_l in Hvs as ->.
    rewrite (processFinalResult_Permutation _ _ Hperm). subst c0.
    rewrite (cached_cache_put_fresh _ tb s2 _ x2) by done.
    rewrite cached_cache_put_ne by done.
    rewrite (cached_cache_put_fresh _ ta s1 _ x1) by done.
    by vm_compute. }
  split; [exact Hall|].
  destruct (processURLs_can_return T (λ c', c' = c0) [V s1; V s2] envs c0 t [s1; s2]
              eq_refl Hpred eq_refl (conj Hta Htb)) as (sched & rs & c' & Hsched & Hproc).
  exists sched. split; [exact Hsched|].
  unfold Aggregate. rewrite Hproc. f_equal.
  apply (Hall sched); [exact Hsched|]. unfold Aggregate. by rewrite Hproc.
Qed.

Lemma cacheExpiration_pos : (0 < cacheExpiration)%Z.
Proof. reflexivity. Qed.

Lemma deadline_elapsed_resolves_from_cache_witness :
  ctx_done env_late = true ∧
  (interp env_late 7 (getResponseFromURL "fibo") c4_cache).1 = (tt, c4_cache) ∧
  Forall (λ it : nat * Z, (it.2 ≤ 0 + cacheExpiration)%Z ∧ (it.2 ≤ 0 + cacheExpiration)%Z)
         c4_sched ∧
  ∃ out, Aggregate (λ _, env_late) c4_sched c4_cache 1 ["primes"; "fibo"]%string = Some out ∧
         out = mk_slice [1; 5; 6; 9]%Z.
Proof.
  destruct deadline_elapsed_resolves_from_cache as [HA HB].
  assert (ctx_done env_late = true) as Hdone by reflexivity.
  assert (Forall (λ it : nat * Z,
                    (it.2 ≤ 0 + cacheExpiration)%Z ∧ (it.2 ≤ 0 + cacheExpiration)%Z) c4_sched)
    as Hsched.
  { pose proof cacheExpiration_pos. unfold cacheExpiration, Minute in *.
    repeat constructor; cbn; lia. }
  split; [exact Hdone|]. split; [by rewrite (HA env_late 7%Z c4_cache "fibo"%string Hdone)|].
  split; [exact Hsched|].
  assert (Aggregate (λ _, env_late) c4_sched c4_cache 1 ["primes"; "fibo"]%string
          = Some (mk_slice [1; 5; 6; 9]%Z)) as Hagg by (vm_compute; reflexivity).
  eexists. split; [exact Hagg|].
  assert ("primes" ≠ "fibo")%string as Hne by discriminate.
  assert (1 ≤ 0 + cacheExpiration)%Z as Hle by (unfold cacheExpiration, Minute; lia).
  destruct (HB (λ _, env_late) serverCache 0%Z 0%Z 1%Z "primes"%string "fibo"%string
              (λ _, Hdone) Hne Hle Hle) as [Hall _].
  apply (Hall c4_sched); [exact Hsched|exact Hagg].
Defined.

(** ** C5 *)

(** C5. When the fetch goes through and the body decodes to a payload with
    no numbers, the fetcher sends that payload, performs no cache write, and
    leaves the whole cache, so the entry of this URL and of every other,
    exactly as it was. *)
Theorem empty_fetch_leaves_cache
    (e : netenv) (now : Z) (c : gocache.Cache) (url : string) (p : payload) :
  fetch_decodes e url p →
  elems (Numbers p) = [] →
  ∃ tr, interp e now (makeGetRequestForURL url) c = (tt, c, tr) ∧
        sent tr = [ {| data := p |} ] ∧
        Forall (λ a, is_cache_write (projT2 a) = false) tr ∧
        (ctx_done e = false →
         interp e now (getResponseFromURL url) c = (tt, c, act CtxDone :: tr)).
Proof.
  intros (req & resp & Hreq & Hdo & Hdec) Hempty.
  assert (bool_decide (0 < len (Numbers p)) = false) as Hlen.
  { apply bool_decide_eq_false_2. unfold len. rewrite Hempty. cbn. lia. }
  assert (∃ tr, interp e now (makeGetRequestForURL url) c = (tt, c, tr) ∧
                sent tr = [ {| data := p |} ] ∧
                Forall (λ a, is_cache_write (projT2 a) = false) tr) as (tr & Hrun & Hsent & Hw).
  { unfold makeGetRequestForURL. cbn. rewrite Hreq. cbn. rewrite Hdo. cbn.
    rewrite Hdec. cbn. rewrite Hlen. cbn.
    eexists. split; [done|]. split; [done|]. repeat constructor. }
  exists tr. split; [done|]. split; [done|]. split; [done|].
  intros Hdone. unfold getResponseFromURL. cbn -[makeGetRequestForURL].
  by rewrite Hdone, Hrun.
Qed.

Lemma empty_fetch_leaves_cache_witness :
  fetch_decodes env_up "squares" {| Numbers := mk_slice [] |} ∧
  ∃ tr, interp env_up 5 (makeGetRequestForURL "squares") c4_cache = (tt, c4_cache, tr) ∧
        sent tr = [ ints [] ].
Proof.
  assert (fetch_decodes env_up "squares" {| Numbers := mk_slice [] |}) as Hdec.
  { exists {| req_url := "squares" |}, {| Body := "squares" |}. by repeat split. }
  split; [exact Hdec|].
  destruct (empty_fetch_leaves_cache env_up 5 c4_cache "squares" _ Hdec eq_refl)
    as (tr & Hrun & Hsent & _).
  by exists tr.
Defined.

(** ** C6 *)

(** C6. For every URL and every cache, [updateCache] leaves for the URL
    exactly the entry it was given, with an expiration counted from the
    time of this call, whatever was stored before, and no other entry
    changes. So after a put of [v1] and then a put of [v2], a lookup no
    later than [cacheExpiration] after the second put gives exactly [v2];
    after [{1,5}] then [{2}] it gives [{2}]. *)
Theorem updateCache_replaces
    (e : netenv) (c : gocache.Cache) (url : string) (v1 v2 : slice int) (t1 t2 t3 : Z) :
  let c1 := (interp e t1 (updateCache url v1) c).1.2 in
  let c2 := (interp e t2 (updateCache url v2) c1).1.2 in
  (t3 ≤ t2 + cacheExpiration)%Z →
  gocache.items c2 !! url =
    Some {| gocache.Object := any_ints v2;
            gocache.Expiration := (t2 + cacheExpiration)%Z |} ∧
  (∀ k, k ≠ url → gocache.items c2 !! k = gocache.items c !! k) ∧
  (interp e t3 (getResultFromCache url) c2).1.1 = v2 ∧
  (v1 = mk_slice [1; 5]%Z → v2 = mk_slice [2]%Z →
   (interp e t3 (getResultFromCache url) c2).1.1 = mk_slice [2]%Z).
Proof.
  intros c1 c2 Ht3. subst c1 c2. rewrite !interp_updateCache. cbn [fst snd].
  rewrite interp_getResultFromCache. cbn [fst snd].
  assert (cached (gocache.Add (gocache.Delete
            (gocache.Add (gocache.Delete c url) t1 url (any_ints v1) cacheExpiration).2 url)
            t2 url (any_ints v2) cacheExpiration).2 t3 url = v2) as Hget.
  { unfold cached, gocache.Get, gocache.get. rewrite gocache_put_items, lookup_insert_eq. cbn.
    rewrite (bool_decide_eq_false_2 (t2 + cacheExpiration < t3)%Z) by lia.
    by rewrite andb_false_r. }
  split; [|split; [|split]].
  - by rewrite gocache_put_items, lookup_insert_eq.
  - intros k Hk. by rewrite !gocache_put_items, !lookup_insert_ne.
  - exact Hget.
  - intros _ <-. exact Hget.
Qed.

Lemma updateCache_replaces_witness :
  (7 ≤ 3 + cacheExpiration)%Z ∧
  (interp env_up 7 (getResultFromCache "primes")
     (interp env_up 3 (updateCache "primes" (mk_slice [2]%Z))
        (interp env_up 1 (updateCache "primes" (mk_slice [1; 5]%Z)) c4_cache).1.2).1.2).1.1
  = mk_slice [2]%Z.
Proof.
  assert (7 ≤ 3 + cacheExpiration)%Z as Hle by (unfold cacheExpiration, Minute; lia).
  split; [exact Hle|].
  destruct (updateCache_replaces env_up c4_cache "primes" (mk_slice [1; 5]%Z)
              (mk_slice [2]%Z) 1 3 7 Hle) as (_ & _ & _ & Hex).
  exact (Hex eq_refl eq_refl).
Defined.

(** ** C10 *)

(** C10. [getResultFromCache] returns for every cache, time and URL: it
    performs one cache lookup and nothing else, leaves the cache as it is,
    and returns the stored slice when the lookup finds a [[]int]; when the
    key is absent or expired, or the stored value has another type, it
    returns the nil slice, of length 0, and does not fail. *)
Theorem getResultFromCache_total (e : netenv) (now : Z) (c : gocache.Cache) (url : string) :
  ∃ data,
    interp e now (getResultFromCache url) c = (data, c, [act (CacheGet url)]) ∧
    data = match gocache.Get c now url with
           | Some (any_ints s) => s
           | Some (any_other _) => nil_slice
           | None => nil_slice
           end ∧
    (gocache.Get c now url = None → data = nil_slice ∧ len data = 0) ∧
    (∀ ty, gocache.Get c now url = Some (any_other ty) → data = nil_slice ∧ len data = 0).
Proof.
  exists (cached c now url). rewrite interp_getResultFromCache. unfold cached.
  split; [done|]. split; [by destruct (gocache.Get c now url) as [[s|ty]|]|].
  split; [by intros ->|]. by intros ty ->.
Qed.

Lemma getResultFromCache_total_witness :
  gocache.Get c10_cache 5 "fibo" = None ∧
  gocache.Get c10_cache 5 "primes" = Some (any_other "string") ∧
  (interp env_up 5 (getResultFromCache "fibo") c10_cache).1.1 = nil_slice ∧
  (interp env_up 5 (getResultFromCache "primes") c10_cache).1.1 = nil_slice.
Proof.
  assert (gocache.Get c10_cache 5 "fibo" = None) as Hmiss by reflexivity.
  assert (gocache.Get c10_cache 5 "primes" = Some (any_other "string")) as Hty by reflexivity.
  split; [exact Hmiss|]. split; [exact Hty|]. split.
  - destruct (getResultFromCache_total env_up 5 c10_cache "fibo")
      as (data & -> & _ & Hnone & _).
    exact (proj1 (Hnone Hmiss)).
  - destruct (getResultFromCache_total env_up 5 c10_cache "primes")
      as (data & -> & _ & _ & Hother).
    exact (proj1 (Hother _ Hty)).
Defined.

(** ** C7 *)

Lemma Forall2_replicate_l {A} (V : A → Prop) n vs :
  Forall2 (λ (W : A → Prop) v, W v) (replicate n V) vs → Forall V vs ∧ length vs = n.
Proof.
  revert vs. induction n as [|n IH]; intros vs Hvs; cbn in Hvs.
  - by apply Forall2_nil_inv_l in Hvs as ->.
  - apply Forall2_cons_inv_l in Hvs as (v & vs' & Hv & Hvs & ->).
    destruct (IH _ Hvs) as [Hall Hlen]. split; [by constructor|]. cbn. by rewrite Hlen.
Qed.

(** C7. When every fetch fails (the context is done, or the request, the
    transport or the decoding fails) and the cache has no numbers for any
    of the requested URLs (the key is absent, its entry has expired, or
    the entry is empty), whatever it holds for other URLs: every run of
    [processURLs] that returns gives one result per URL, each with no
    numbers, and leaves the cache as it was; the aggregate of every such
    run is the allocated empty slice [[]], not nil; and such a run
    exists. *)
Theorem all_sources_fail_gives_empty
    (envs : nat → netenv) (c : gocache.Cache) (t : Z) (urls : list string) :
  (∀ url, url ∈ urls → nothing_cached c t url) →
  (∀ i url, urls !! i = Some url → ctx_done (envs i) = true ∨ fetch_fails (envs i) url) →
  (∀ sched rs c',
     processURLs envs sched c t urls = Some (rs, c') →
     length rs = length urls ∧
     Forall (λ r, elems (Numbers (data r)) = []) rs ∧
     c' = c ∧
     processFinalResult rs = mk_slice []) ∧
  (∀ sched out, Aggregate envs sched c t urls = Some out →
                out = mk_slice [] ∧ is_nil out = false) ∧
  (∃ sched, Aggregate envs sched c t urls = Some (mk_slice [])).
Proof.
  intros Hc Hfail.
  set (T := λ x : Z, (t ≤ x)%Z).
  set (V := λ (url : string) (v : result),
              ∃ t' c1, T t' ∧ c1 = c ∧ v = mk_result (cached c1 t' url)).
  set (Vs := V <$> urls).
  assert (length Vs = length urls) as Hlen by (unfold Vs; by rewrite length_fmap).
  assert (∀ i url W, urls !! i = Some url → Vs !! i = Some W →
            predicts T (λ c1, c1 = c) (envs i) W fuel None (getResponseFromURL url))
    as Hpred.
  { intros i url W Hu HW. unfold Vs in HW. rewrite list_lookup_fmap, Hu in HW.
    simplify_eq/=.
    apply (predicts_fallback T (λ c1, c1 = c) (envs i) url). by eapply Hfail. }
  assert (∀ sched rs c',
            processURLs envs sched c t urls = Some (rs, c') →
            length rs = length urls ∧ Forall (λ r, elems (Numbers (data r)) = []) rs ∧
            c' = c ∧ processFinalResult rs = mk_slice []) as Hruns.
  { intros sched rs c' Hproc.
    assert (Forall (λ it : nat * Z, T it.2) sched) as Hsched.
    { unfold processURLs in Hproc.
      destruct (run sched (processURLs_start envs c t urls)) as [s|] eqn:Hrun; [|done].
      exact (run_clock_le _ _ _ Hrun). }
    destruct (processURLs_results _ _ Vs envs sched c t urls rs c' Hlen Hpred eq_refl
                Hsched Hproc) as (Hc' & vs & Hperm & Hvs).
    unfold Vs in Hvs. apply Forall2_fmap_l in Hvs.
    assert (Forall (λ r, elems (Numbers (data r)) = []) rs) as Hrs.
    { rewrite Hperm. apply Forall_forall. intros v Hv.
      apply list_elem_of_lookup in Hv as [i Hv].
      destruct (Forall2_lookup_r _ _ _ _ _ Hvs Hv) as (url & Hu & (t' & c1 & Ht' & -> & ->)).
      cbn. apply (cached_nothing_cached c t); [|exact Ht'].
      apply Hc. by eapply list_elem_of_lookup_2. }
    split; [by rewrite Hperm, <-(Forall2_length _ _ _ Hvs)|].
    split; [done|]. split; [done|].
    by apply processFinalResult_all_empty. }
  split; [exact Hruns|]. split.
  - intros sched out Hagg. unfold Aggregate in Hagg.
    destruct (processURLs envs sched c t urls) as [[rs c']|] eqn:Hproc; [|done].
    simplify_eq. destruct (Hruns _ _ _ Hproc) as (_ & _ & _ & ->). done.
  - assert (T t) as Ht by (unfold T; lia).
    destruct (processURLs_can_return _ _ Vs envs c t urls Hlen Hpred eq_refl Ht)
      as (sched & rs & c' & _ & Hproc).
    exists sched. unfold Aggregate. rewrite Hproc.
    by destruct (Hruns _ _ _ Hproc) as (_ & _ & _ & ->).
Qed.

Lemma all_sources_fail_gives_empty_witness :
  (∀ url, url ∈ c1_urls → nothing_cached c7_cache c7_time url) ∧
  (∀ i url, c1_urls !! i = Some url →
            ctx_done (c7_envs i) = true ∨ fetch_fails (c7_envs i) url) ∧
  is_Some (gocache.items c7_cache !! "primes"%string) ∧
  cached c7_cache c7_time "cubes" = mk_slice [8; 27]%Z ∧
  ∃ sched, Aggregate c7_envs sched c7_cache c7_time c1_urls = Some (mk_slice []).
Proof.
  assert (∀ url, url ∈ c1_urls → nothing_cached c7_cache c7_time url) as Hc.
  { intros url H. unfold c1_urls in H.
    repeat (apply elem_of_cons in H as [->|H]); [| | |by apply elem_of_nil in H].
    - vm_compute. left. by split.
    - by vm_compute.
    - by vm_compute. }
  assert (∀ i url, c1_urls !! i = Some url →
                   ctx_done (c7_envs i) = true ∨ fetch_fails (c7_envs i) url) as Hfail.
  { intros [|[|[|i]]] url Hu; simplify_eq/=.
    - right. by eapply (fails_transport env_down "primes" {| req_url := "primes" |}).
    - right. by eapply (fails_decode env_garbled "fibo" {| req_url := "fibo" |}
                          {| Body := "fibo" |}).
    - by left. }
  split; [exact Hc|]. split; [exact Hfail|].
  split; [vm_compute; eexists; reflexivity|]. split; [by vm_compute|].
  exact (proj2 (proj2 (all_sources_fail_gives_empty c7_envs c7_cache c7_time c1_urls Hc Hfail))).
Defined.

(** ** C8 *)

Lemma Forall2_fmap_eq {A B} (f : A → B) (ps : list A) (vs : list B) :
  Forall2 (λ (W : B → Prop) v, W v) ((λ p v, v = f p) <$> ps) vs → vs = f <$> ps.
Proof.
  revert vs. induction ps as [|p ps IH]; intros vs Hvs; cbn in Hvs.
  - by apply Forall2_nil_inv_l in Hvs as ->.
  - apply Forall2_cons_inv_l in Hvs as (v & vs' & -> & Hvs & ->). cbn. f_equal. by apply IH.
Qed.

(** When every fetch goes through, the aggregate is the reduction of the
    decoded payloads, whatever the schedule and the cache. *)
Lemma Aggregate_all_decode envs sched c t urls (ps : list payload) out :
  length ps = length urls →
  (∀ i url p, urls !! i = Some url → ps !! i = Some p →
              ctx_done (envs i) = false ∧ fetch_decodes (envs i) url p) →
  Aggregate envs sched c t urls = Some out →
  out = processFinalResult ((λ p, {| data := p |}) <$> ps).
Proof.
  intros Hlen Hok Hagg. unfold Aggregate in Hagg.
  destruct (processURLs envs sched c t urls) as [[rs c']|] eqn:Hproc; [|done]. simplify_eq.
  set (Vs := (λ p v, v = {| data := p |}) <$> ps).
  assert (∀ i url W, urls !! i = Some url → Vs !! i = Some W →
            predicts (λ _, True) (λ _, True) (envs i) W fuel None (getResponseFromURL url))
    as Hpred.
  { intros i url W Hu HW. unfold Vs in HW. rewrite list_lookup_fmap in HW.
    destruct (ps !! i) as [p|] eqn:Hp; [|done]. simplify_eq/=.
    destruct (Hok i url p Hu Hp) as [Hdone Hdec]. by apply predicts_decodes. }
  destruct (processURLs_results _ _ Vs envs sched c t urls rs c'
              ltac:(by unfold Vs; rewrite length_fmap) Hpred Logic.I
              (Forall_trivial _) Hproc) as (_ & vs & Hperm & Hvs).
  apply Forall2_fmap_eq in Hvs as ->. by apply processFinalResult_Permutation.
Qed.

(** C8. [processFinalResult] is a function of its input and gives the same
    slice for any two orderings of the same results. So two calls of
    [Aggregate] on the same URLs, in which every fetch goes through and
    decodes to the same payload, return the same slice, whatever the order
    in which the goroutines run and whatever the cache holds. *)
Theorem aggregate_order_independent :
  (∀ res res', res ≡ₚ res' → processFinalResult res = processFinalResult res') ∧
  (∀ (envs1 envs2 : nat → netenv) (sched1 sched2 : list (nat * Z))
     (c1 c2 : gocache.Cache) (t1 t2 : Z) (urls : list string) (ps : list payload)
     (out1 out2 : slice int),
     length ps = length urls →
     (∀ i url p, urls !! i = Some url → ps !! i = Some p →
                 ctx_done (envs1 i) = false ∧ fetch_decodes (envs1 i) url p) →
     (∀ i url p, urls !! i = Some url → ps !! i = Some p →
                 ctx_done (envs2 i) = false ∧ fetch_decodes (envs2 i) url p) →
     Aggregate envs1 sched1 c1 t1 urls = Some out1 →
     Aggregate envs2 sched2 c2 t2 urls = Some out2 →
     out1 = out2).
Proof.
  split; [apply processFinalResult_Permutation|].
  intros envs1 envs2 sched1 sched2 c1 c2 t1 t2 urls ps out1 out2 Hlen H1 H2 Ha1 Ha2.
  rewrite (Aggregate_all_decode envs1 sched1 c1 t1 urls ps out1 Hlen H1 Ha1).
  by rewrite (Aggregate_all_decode envs2 sched2 c2 t2 urls ps out2 Hlen H2 Ha2).
Qed.

Lemma aggregate_order_independent_witness :
  [ints [1; 2; 7]; ints [1; 5]]%Z ≡ₚ [ints [1; 5]; ints [1; 2; 7]]%Z ∧
  processFinalResult [ints [1; 2; 7]; ints [1; 5]]%Z =
    processFinalResult [ints [1; 5]; ints [1; 2; 7]]%Z ∧
  fst <$> processURLs (λ _, env_up) c8_sched1 serverCache 0 c8_urls =
    Some [ints [1; 2; 7]; ints [1; 5]]%Z ∧
  fst <$> processURLs (λ _, env_up) c8_sched2 c8_cache2 1 c8_urls =
    Some [ints [1; 5]; ints [1; 2; 7]]%Z ∧
  Aggregate (λ _, env_up) c8_sched1 serverCache 0 c8_urls =
    Aggregate (λ _, env_up) c8_sched2 c8_cache2 1 c8_urls.
Proof.
  destruct aggregate_order_independent as [Hperm Hruns].
  assert ([ints [1; 2; 7]; ints [1; 5]]%Z ≡ₚ [ints [1; 5]; ints [1; 2; 7]]%Z) as Hp
    by apply Permutation_swap.
  split; [exact Hp|]. split; [exact (Hperm _ _ Hp)|].
  split; [by vm_compute|]. split; [by vm_compute|].
  assert (∀ i url p, c8_urls !! i = Some url → c8_payloads !! i = Some p →
            ctx_done (env_up) = false ∧ fetch_decodes env_up url p) as Hok.
  { intros [|[|i]] url p Hu Hp'; simplify_eq/=; (split; [done|]).
    - exists {| req_url := "primes" |}, {| Body := "primes" |}. by repeat split.
    - exists {| req_url := "fibo" |}, {| Body := "fibo" |}. by repeat split. }
  destruct (Aggregate (λ _, env_up) c8_sched1 serverCache 0 c8_urls) as [out1|] eqn:Ha1;
    [|by vm_compute in Ha1].
  destruct (Aggregate (λ _, env_up) c8_sched2 c8_cache2 1 c8_urls) as [out2|] eqn:Ha2;
    [|by vm_compute in Ha2].
  f_equal.
  exact (Hruns (λ _, env_up) (λ _, env_up) c8_sched1 c8_sched2 serverCache c8_cache2
           0%Z 1%Z c8_urls c8_payloads _ _ eq_refl Hok Hok Ha1 Ha2).
Defined.

(** ** C9 *)

(** C9. The overwrite in [updateCache] is two cache operations, and a
    reader can run between them. On a cache that holds [{1,5}] for the URL,
    with one fetcher overwriting it with [{1,2,7}] and another falling back
    to it: when the reader runs before the writer it gets [{1,5}], when it
    runs after it gets [{1,2,7}], and when it runs between the writer's
    [Delete] and [Add] it gets the nil slice, which is neither; the cache
    ends with [{1,2,7}] in all three runs. *)
Theorem updateCache_reader_sees_gap :
  let start := processURLs_start c9_envs c9_cache 1 c9_urls in
  cached_primes start = mk_slice [1; 5]%Z ∧
  results <$> run c9_sched_before start = Some [ints [1; 5]; ints [1; 2; 7]]%Z ∧
  results <$> run c9_sched_after start = Some [ints [1; 2; 7]; ints [1; 2; 7]]%Z ∧
  results <$> run c9_sched start =
    Some [ {| data := {| Numbers := nil_slice |} |}; ints [1; 2; 7]%Z ] ∧
  cached_primes <$> run c9_sched_before start = Some (mk_slice [1; 2; 7]%Z) ∧
  cached_primes <$> run c9_sched_after start = Some (mk_slice [1; 2; 7]%Z) ∧
  cached_primes <$> run c9_sched start = Some (mk_slice [1; 2; 7]%Z) ∧
  cached_primes <$> run (replicate 6 (0, 1%Z)) start = Some nil_slice.
Proof. repeat split; by vm_compute. Qed.

(** * Further properties *)

(** ** The reducer, continued *)

Lemma processFinalResult_ext (res res' : list result) :
  (∀ x, (∃ r, r ∈ res ∧ x ∈ numbers_of r) ↔ (∃ r, r ∈ res' ∧ x ∈ numbers_of r)) →
  processFinalResult res = processFinalResult res'.
Proof.
  intros Hsame.
  destruct (processFinalResult_spec res) as (l & -> & Hs & Hel).
  destruct (processFinalResult_spec res') as (l' & -> & Hs' & Hel').
  f_equal. apply StronglySorted_lt_ext; [done..|].
  intros x. rewrite Hel, Hel'. apply Hsame.
Qed.

Lemma elem_of_processFinalResult (res : list result) (x : Z) :
  x ∈ elems (processFinalResult res) ↔ ∃ r, r ∈ res ∧ x ∈ numbers_of r.
Proof. destruct (processFinalResult_spec res) as (l & -> & _ & Hel). apply Hel. Qed.

(** X1. The reducer looks only at which numbers occur: two lists of
    results in which the same numbers occur, however they are spread over
    the results and however often they repeat, reduce to the same slice. *)
Theorem processFinalResult_same_numbers (res res' : list result) :
  (∀ x, (∃ r, r ∈ res ∧ x ∈ numbers_of r) ↔ (∃ r, r ∈ res' ∧ x ∈ numbers_of r)) →
  processFinalResult res = processFinalResult res'.
Proof. apply processFinalResult_ext. Qed.

Lemma processFinalResult_same_numbers_witness :
  processFinalResult [ints [7; 1]; ints [5; 1; 7]]%Z =
  processFinalResult [ints [1; 5; 5]; ints []; ints [7]]%Z.
Proof.
  apply processFinalResult_same_numbers. intros x. unfold numbers_of. split.
  - intros (r & Hr & Hx). repeat (apply elem_of_cons in Hr as [->|Hr]); cbn in Hx;
      [| |by apply elem_of_nil in Hr];
      repeat (apply elem_of_cons in Hx as [->|Hx]); try (by apply elem_of_nil in Hx).
    + exists (ints [7]%Z). split; [|cbn]; repeat constructor.
    + exists (ints [1; 5; 5]%Z). split; [|cbn]; repeat constructor.
    + exists (ints [1; 5; 5]%Z). split; [|cbn]; repeat constructor.
    + exists (ints [1; 5; 5]%Z). split; [|cbn]; repeat constructor.
    + exists (ints [7]%Z). split; [|cbn]; repeat constructor.
  - intros (r & Hr & Hx). repeat (apply elem_of_cons in Hr as [->|Hr]); cbn in Hx;
      [| | |by apply elem_of_nil in Hr];
      repeat (apply elem_of_cons in Hx as [->|Hx]); try (by apply elem_of_nil in Hx).
    + exists (ints [7; 1]%Z). split; [|cbn]; repeat constructor.
    + exists (ints [5; 1; 7]%Z). split; [|cbn]; repeat constructor.
    + exists (ints [5; 1; 7]%Z). split; [|cbn]; repeat constructor.
    + exists (ints [7; 1]%Z). split; [|cbn]; repeat constructor.
Defined.

(** X2. Reducing in two stages gives the same as reducing at once: the
    reduction of [res1 ++ res2] is the reduction of the two reductions;
    in particular reducing a reduction changes nothing. *)
Theorem processFinalResult_merge (res1 res2 : list result) :
  processFinalResult (res1 ++ res2) =
    processFinalResult [mk_result (processFinalResult res1);
                        mk_result (processFinalResult res2)] ∧
  processFinalResult [mk_result (processFinalResult res1)] = processFinalResult res1.
Proof.
  split; apply processFinalResult_ext; intros x; unfold numbers_of, mk_result.
  - split.
    + intros (r & [Hr|Hr]%elem_of_app & Hx).
      * exists (mk_result (processFinalResult res1)). split; [left|].
        cbn. apply elem_of_processFinalResult. by exists r.
      * exists (mk_result (processFinalResult res2)). split; [right; left|].
        cbn. apply elem_of_processFinalResult. by exists r.
    + intros (r & Hr & Hx).
      apply elem_of_cons in Hr as [->|Hr]; [|apply list_elem_of_singleton in Hr as ->];
        cbn in Hx; apply elem_of_processFinalResult in Hx as (r' & Hr' & Hx');
        exists r'; (split; [|done]); apply elem_of_app; auto.
  - split.
    + intros (r & ->%list_elem_of_singleton & Hx). cbn in Hx.
      by apply elem_of_processFinalResult in Hx.
    + intros Hx. exists (mk_result (processFinalResult res1)). split; [left|].
      cbn. by apply elem_of_processFinalResult.
Qed.

(** X3. A single result that is already strictly increasing comes back
    unchanged, as an allocated slice. *)
Theorem processFinalResult_of_sorted (l : list Z) :
  StronglySorted Z.lt l → processFinalResult [ints l] = mk_slice l.
Proof.
  intros Hl. destruct (processFinalResult_spec [ints l]) as (l' & -> & Hs & Hel).
  f_equal. apply StronglySorted_lt_ext; [done..|].
  intros x. rewrite Hel. split.
  - by intros (r & ->%list_elem_of_singleton & Hx).
  - intros Hx. exists (ints l). split; [left|done].
Qed.

Lemma processFinalResult_of_sorted_witness :
  StronglySorted Z.lt [-4; 0; 3; 8]%Z ∧
  processFinalResult [ints [-4; 0; 3; 8]%Z] = mk_slice [-4; 0; 3; 8]%Z.
Proof.
  assert (StronglySorted Z.lt [-4; 0; 3; 8]%Z) as Hs.
  { repeat (constructor; [|repeat constructor; lia]). constructor. }
  split; [exact Hs|]. exact (processFinalResult_of_sorted _ Hs).
Defined.

Lemma elem_of_concat_numbers (res : list result) (x : Z) :
  x ∈ concat (numbers_of <$> res) ↔ ∃ r, r ∈ res ∧ x ∈ numbers_of r.
Proof.
  induction res as [|r res IH]; cbn.
  - split; [by intros ?%elem_of_nil|]. by intros (r & ?%elem_of_nil & _).
  - rewrite elem_of_app, IH. split.
    + intros [Hx|(r' & Hr' & Hx)]; [exists r; split; [left|done]|].
      exists r'. split; [by right|done].
    + intros (r' & [->|Hr']%elem_of_cons & Hx); [by left|]. right. by exists r'.
Qed.

(** X4. The reduction is never longer than the inputs taken together, and
    it is exactly as long when no number occurs twice in the inputs. *)
Theorem processFinalResult_length (res : list result) :
  len (processFinalResult res) ≤ length (concat (numbers_of <$> res)) ∧
  (NoDup (concat (numbers_of <$> res)) →
   len (processFinalResult res) = length (concat (numbers_of <$> res))).
Proof.
  destruct (processFinalResult_spec res) as (l & -> & Hs & Hel). unfold len. cbn.
  assert (∀ x, x ∈ l ↔ x ∈ concat (numbers_of <$> res)) as Hmem.
  { intros x. by rewrite Hel, elem_of_concat_numbers. }
  pose proof (StronglySorted_lt_NoDup l Hs) as Hnd. split.
  - apply submseteq_length, NoDup_submseteq; [done|]. intros x. apply Hmem.
  - intros Hnd'. apply Permutation_length, NoDup_Permutation; done.
Qed.

Lemma processFinalResult_length_witness :
  NoDup (concat (numbers_of <$> [ints [7; 1]; ints [5]]%Z)) ∧
  len (processFinalResult [ints [7; 1]; ints [5]]%Z) = 3.
Proof.
  assert (NoDup (concat (numbers_of <$> [ints [7; 1]; ints [5]]%Z))) as Hnd.
  { cbn. apply (bool_decide_unpack _). by vm_compute. }
  split; [exact Hnd|].
  exact (proj2 (processFinalResult_length [ints [7; 1]; ints [5]]%Z) Hnd).
Defined.

(** ** One fetcher, continued *)

Lemma payload_eta (p : payload) : {| Numbers := Numbers p |} = p.
Proof. by destruct p. Qed.

Lemma interp_fresh e now c url p :
  fetch_decodes e url p → 0 < len (Numbers p) →
  ∃ req resp,
    interp e now (makeGetRequestForURL url) c =
    (tt, cache_put c now url (Numbers p),
     [act (LogPrintf "sending GET request to URL %s");
      act (NewRequestWithContext url); act (ClientDo req); act (JsonDecode resp);
      act (CacheDelete url); act (CacheAdd url (any_ints (Numbers p)) cacheExpiration);
      act (ChanSend {| data := p |}); act (BodyClose resp)]).
Proof.
  intros (req & resp & Hreq & Hdo & Hdec) Hlen. exists req, resp.
  unfold cache_put. rewrite interp_updateCache. cbn [fst snd].
  unfold makeGetRequestForURL. cbn. rewrite Hreq. cbn. rewrite Hdo. cbn.
  rewrite Hdec. cbn. rewrite (bool_decide_eq_true_2 _ Hlen). cbn.
  by destruct (gocache.Add _ _ _ _ _) as [er c'].
Qed.

Lemma makeGetRequestForURL_fallback e now c url :
  fetch_fails e url →
  ∃ tr, interp e now (makeGetRequestForURL url) c = (tt, c, tr) ∧
        sent tr = [mk_result (cached c now url)].
Proof.
  intros [err Hreq|req err Hreq Hdo|req resp err Hreq Hdo Hdec];
    unfold makeGetRequestForURL; cbn; rewrite Hreq; cbn.
  - eexists. by split.
  - rewrite Hdo; cbn. eexists. by split.
  - rewrite Hdo; cbn. rewrite Hdec; cbn. eexists. by split.
Qed.

Lemma interp_fallback e now c url :
  ctx_done e = true ∨ fetch_fails e url →
  ∃ tr, interp e now (getResponseFromURL url) c = (tt, c, tr) ∧
        sent tr = [mk_result (cached c now url)].
Proof.
  intros Hfb. unfold getResponseFromURL. cbn -[makeGetRequestForURL].
  destruct (ctx_done e) eqn:Hdone.
  { cbn. eexists. split; [done|]. done. }
  destruct Hfb as [?|Hfail]; [done|].
  destruct (makeGetRequestForURL_fallback e now c url Hfail) as (tr & -> & Hsent).
  eexists. split; [done|]. cbn. exact Hsent.
Qed.

(** X5. A fetch that goes through and decodes to at least one number
    stores the numbers under its URL, with an expiration [cacheExpiration]
    after the fetch, replaces whatever was stored for the URL, touches no
    other entry, never reads the cache, and sends the decoded payload. *)
Theorem fresh_fetch_updates_cache
    (e : netenv) (now : Z) (c : gocache.Cache) (url : string) (p : payload) :
  ctx_done e = false → fetch_decodes e url p → 0 < len (Numbers p) →
  ∃ c' tr,
    interp e now (getResponseFromURL url) c = (tt, c', tr) ∧
    sent tr = [ {| data := p |} ] ∧
    count_events (@is_cache_get) tr = 0 ∧
    gocache.items c' =
      <[url := {| gocache.Object := any_ints (Numbers p);
                  gocache.Expiration := (now + cacheExpiration)%Z |}]> (gocache.items c) ∧
    gocache.defaultExpiration c' = gocache.defaultExpiration c.
Proof.
  intros Hdone Hdec Hlen.
  destruct (interp_fresh e now c url p Hdec Hlen) as (req & resp & Hrun).
  exists (cache_put c now url (Numbers p)). eexists.
  unfold getResponseFromURL. cbn -[makeGetRequestForURL]. rewrite Hdone, Hrun.
  split; [done|]. split; [done|]. split; [done|].
  split; [apply cache_put_items|].
  unfold cache_put. rewrite interp_updateCache. apply gocache_put_defaultExpiration.
Qed.

Lemma env_up_decodes_primes :
  fetch_decodes env_up "primes" {| Numbers := mk_slice [1; 2; 7]%Z |}.
Proof. exists {| req_url := "primes" |}, {| Body := "primes" |}. by repeat split. Qed.

Lemma fresh_fetch_updates_cache_witness :
  ctx_done env_up = false ∧
  fetch_decodes env_up "primes" {| Numbers := mk_slice [1; 2; 7]%Z |} ∧
  ∃ c', (interp env_up 5 (getResponseFromURL "primes") c4_cache).1.2 = c' ∧
        gocache.items c' !! "primes"%string =
          Some {| gocache.Object := any_ints (mk_slice [1; 2; 7]%Z);
                  gocache.Expiration := (5 + cacheExpiration)%Z |}.
Proof.
  split; [reflexivity|]. split; [exact env_up_decodes_primes|].
  destruct (fresh_fetch_updates_cache env_up 5 c4_cache "primes" _ eq_refl
              env_up_decodes_primes ltac:(cbn; lia)) as (c' & tr & Hrun & _ & _ & Hitems & _).
  exists c'. rewrite Hrun. split; [done|]. by rewrite Hitems, lookup_insert_eq.
Defined.

(** X6. The cache gives back the last fresh numbers: after a fetch that
    decoded to at least one number, a later fetch of the same URL that
    falls back to the cache (context done, or request, transport or
    decoding failure), no later than [cacheExpiration] after the first,
    sends exactly the numbers the first one decoded. *)
Theorem fallback_returns_last_fresh
    (e1 e2 : netenv) (t1 t2 : Z) (c : gocache.Cache) (url : string) (p : payload) :
  ctx_done e1 = false → fetch_decodes e1 url p → 0 < len (Numbers p) →
  ctx_done e2 = true ∨ fetch_fails e2 url →
  (t2 ≤ t1 + cacheExpiration)%Z →
  let c1 := (interp e1 t1 (getResponseFromURL url) c).1.2 in
  ∃ tr, interp e2 t2 (getResponseFromURL url) c1 = (tt, c1, tr) ∧
        sent tr = [ {| data := p |} ].
Proof.
  intros Hdone Hdec Hlen Hfb Ht c1.
  destruct (interp_fresh e1 t1 c url p Hdec Hlen) as (req & resp & Hrun).
  assert (c1 = cache_put c t1 url (Numbers p)) as ->.
  { subst c1. unfold getResponseFromURL. cbn -[makeGetRequestForURL].
    by rewrite Hdone, Hrun. }
  destruct (interp_fallback e2 t2 (cache_put c t1 url (Numbers p)) url Hfb) as (tr & Hrun2 & Hsent).
  exists tr. split; [done|]. rewrite Hsent, cached_cache_put_fresh by done.
  unfold mk_result. by rewrite payload_eta.
Qed.

Lemma fallback_returns_last_fresh_witness :
  (ctx_done env_late = true ∨ fetch_fails env_late "primes") ∧
  (7 ≤ 5 + cacheExpiration)%Z ∧
  sent (interp env_late 7 (getResponseFromURL "primes")
          (interp env_up 5 (getResponseFromURL "primes") serverCache).1.2).2
  = [ints [1; 2; 7]%Z].
Proof.
  assert (7 ≤ 5 + cacheExpiration)%Z as Hle by (unfold cacheExpiration, Minute; lia).
  assert (ctx_done env_late = true ∨ fetch_fails env_late "primes") as Hfb
    by (left; reflexivity).
  split; [exact Hfb|]. split; [exact Hle|].
  destruct (fallback_returns_last_fresh env_up env_late 5 7 serverCache "primes" _ eq_refl
              env_up_decodes_primes ltac:(cbn; lia) Hfb Hle)
    as (tr & Hrun & Hsent).
  cbv zeta in Hrun. rewrite Hrun. exact Hsent.
Defined.

(** X7. Entries expire: when more than [cacheExpiration] has passed since
    the fetch that stored the numbers (on a clock past the epoch), a fetch
    of the same URL that falls back to the cache sends the nil slice, and
    the expired entry is still in the map. *)
Theorem fallback_after_expiry_is_empty
    (e1 e2 : netenv) (t1 t2 : Z) (c : gocache.Cache) (url : string) (p : payload) :
  ctx_done e1 = false → fetch_decodes e1 url p → 0 < len (Numbers p) →
  ctx_done e2 = true ∨ fetch_fails e2 url →
  (0 < t1 + cacheExpiration)%Z → (t1 + cacheExpiration < t2)%Z →
  let c1 := (interp e1 t1 (getResponseFromURL url) c).1.2 in
  ∃ tr, interp e2 t2 (getResponseFromURL url) c1 = (tt, c1, tr) ∧
        sent tr = [ mk_result nil_slice ] ∧
        is_Some (gocache.items c1 !! url).
Proof.
  intros Hdone Hdec Hlen Hfb Hpos Ht c1.
  destruct (interp_fresh e1 t1 c url p Hdec Hlen) as (req & resp & Hrun).
  assert (c1 = cache_put c t1 url (Numbers p)) as ->.
  { subst c1. unfold getResponseFromURL. cbn -[makeGetRequestForURL].
    by rewrite Hdone, Hrun. }
  destruct (interp_fallback e2 t2 (cache_put c t1 url (Numbers p)) url Hfb) as (tr & Hrun2 & Hsent).
  exists tr. split; [done|]. split.
  - rewrite Hsent, cached_cache_put.
    by rewrite (bool_decide_eq_true_2 _ Hpos), (bool_decide_eq_true_2 _ Ht).
  - rewrite cache_put_items, lookup_insert_eq. eauto.
Qed.

Lemma fallback_after_expiry_is_empty_witness :
  (0 < 5 + cacheExpiration)%Z ∧ (5 + cacheExpiration < 6 + cacheExpiration)%Z ∧
  sent (interp env_down (6 + cacheExpiration) (getResponseFromURL "primes")
          (interp env_up 5 (getResponseFromURL "primes") serverCache).1.2).2
  = [ mk_result nil_slice ].
Proof.
  assert (0 < 5 + cacheExpiration)%Z as Hpos by (unfold cacheExpiration, Minute; lia).
  assert (5 + cacheExpiration < 6 + cacheExpiration)%Z as Hlt by lia.
  assert (ctx_done env_down = true ∨ fetch_fails env_down "primes") as Hfb.
  { right. by eapply (fails_transport env_down "primes" {| req_url := "primes" |}). }
  split; [exact Hpos|]. split; [exact Hlt|].
  destruct (fallback_after_expiry_is_empty env_up env_down 5 (6 + cacheExpiration) serverCache
              "primes" _ eq_refl env_up_decodes_primes ltac:(cbn; lia) Hfb Hpos Hlt)
    as (tr & Hrun & Hsent & _).
  cbv zeta in Hrun. rewrite Hrun. exact Hsent.
Defined.

Ltac budget_tac :=
  split; [cbv; lia|]; split; [cbv; lia|]; split; [cbv; lia|]; split; [cbv; lia|];
  split; [by cbv|];
  split; [repeat (constructor; [cbn; auto|]); constructor|].

(** X8. What one fetcher does at most, whatever the network answers and
    whatever the cache holds: at most [fuel] events, one request built, one
    request sent (no retry), one cache lookup, exactly one send; every
    cache operation is on its own URL; and it never both reads and writes
    the cache. *)
Theorem fetch_event_budget (e : netenv) (now : Z) (c : gocache.Cache) (url : string) :
  let tr := (interp e now (getResponseFromURL url) c).2 in
  length tr ≤ fuel ∧
  count_events (@is_new_request) tr ≤ 1 ∧
  count_events (@is_client_do) tr ≤ 1 ∧
  count_events (@is_cache_get) tr ≤ 1 ∧
  count_events (@is_send) tr = 1 ∧
  Forall (λ a, cache_key (projT2 a) = None ∨ cache_key (projT2 a) = Some url) tr ∧
  (count_events (@is_cache_get) tr = 0 ∨ count_events (@is_cache_write) tr = 0).
Proof.
  unfold getResponseFromURL, makeGetRequestForURL, fuel. cbn.
  destruct (ctx_done e); cbn; [budget_tac; by right|].
  destruct (new_request e url) as [req|err]; cbn; [|budget_tac; by right].
  destruct (client_do e req) as [resp|err]; cbn; [|budget_tac; by right].
  destruct (json_decode e resp) as [p|err]; cbn; [|budget_tac; by right].
  case_bool_decide; cbn.
  - destruct (gocache.Add _ _ _ _ _) as [er c']. cbn. budget_tac. by left.
  - budget_tac. by left.
Qed.

(** ** Runs of [processURLs], continued *)

Lemma predicts_weaken T I e (V V' : result → Prop) n st p :
  (∀ v, V v → V' v) → predicts T I e V n st p → predicts T I e V' n st p.
Proof.
  intros HV. revert n st. induction p as [u|X ev k IH]; intros n st; cbn; [done|].
  destruct n as [|n]; [done|]. destruct (sent_of ev) as [v|].
  - intros (-> & Hv & Hk). split; [done|]. split; [auto|]. intros t c. apply IH, Hk.
  - intros H t c Ht Hc. destruct (H t c Ht Hc) as [HI Hp]. split; [done|]. by apply IH.
Qed.

(** The general fetcher: it keeps every cache invariant that deleting and
    adding under its own URL keep, and it sends either what the cache
    holds for its URL or the payload it decoded. *)
Lemma predicts_gen T (I : gocache.Cache → Prop) (V : result → Prop) e url :
  (∀ c, I c → I (gocache.Delete c url)) →
  (∀ c t p, ctx_done e = false → fetch_decodes e url p → 0 < len (Numbers p) → T t → I c →
            I (gocache.Add c t url (any_ints (Numbers p)) cacheExpiration).2) →
  (∀ c t, T t → I c → V (mk_result (cached c t url))) →
  (∀ p, ctx_done e = false → fetch_decodes e url p → V {| data := p |}) →
  predicts T I e V fuel None (getResponseFromURL url).
Proof.
  intros HDel HAdd Hcached Hfresh.
  cbn -[gocache.Add gocache.Delete]. intros t0 c0 Ht0 Hc0. split; [done|].
  destruct (ctx_done e) eqn:Hdone.
  { cbn. intros t1 c1 Ht1 Hc1. split; [done|]. intros t2 c2 Ht2 Hc2. split; [done|].
    cbn. split; [done|]. split; [by apply Hcached|done]. }
  cbn -[gocache.Add gocache.Delete]. intros t1 c1 Ht1 Hc1. split; [done|].
  intros t2 c2 Ht2 Hc2. split; [done|].
  destruct (new_request e url) as [req|err] eqn:Hreq.
  2:{ cbn. intros t3 c3 Ht3 Hc3. split; [done|]. intros t4 c4 Ht4 Hc4. split; [done|].
      cbn. split; [done|]. split; [by apply Hcached|done]. }
  cbn -[gocache.Add gocache.Delete]. intros t3 c3 Ht3 Hc3. split; [done|].
  destruct (client_do e req) as [resp|err] eqn:Hdo.
  2:{ cbn. intros t4 c4 Ht4 Hc4. split; [done|]. intros t5 c5 Ht5 Hc5. split; [done|].
      cbn. split; [done|]. split; [by apply Hcached|done]. }
  cbn -[gocache.Add gocache.Delete]. intros t4 c4 Ht4 Hc4. split; [done|].
  destruct (json_decode e resp) as [p|err] eqn:Hdec.
  2:{ cbn. intros t5 c5 Ht5 Hc5. split; [done|]. intros t6 c6 Ht6 Hc6. split; [done|].
      cbn. split; [done|]. split; [by apply Hcached|]. intros _ _ t7 c7 _ Hc7. by split. }
  assert (fetch_decodes e url p) as Hfd by (by exists req, resp).
  cbn -[gocache.Add gocache.Delete]. case_bool_decide as Hlen.
  - cbn -[gocache.Add gocache.Delete]. intros t5 c5 Ht5 Hc5. split; [by apply HDel|].
    intros t6 c6 Ht6 Hc6. split; [by apply HAdd|].
    cbn. split; [done|]. split; [by apply Hfresh|]. intros _ _ t7 c7 _ Hc7. by split.
  - cbn. split; [done|]. split; [by apply Hfresh|]. intros _ _ t7 c7 _ Hc7. by split.
Qed.

(** A fetcher that brings no new numbers writes nothing, so it keeps
    every cache invariant. *)
Lemma predicts_no_fresh T I e url :
  no_fresh e url → predicts T I e (λ _, True) fuel None (getResponseFromURL url).
Proof.
  intros Hnf. predicts_step. destruct (ctx_done e) eqn:Hdone.
  { do 2 predicts_step. cbn. done. }
  destruct Hnf as [?|[Hfail|(p & (req & resp & Hreq & Hdo & Hdec) & Hempty)]]; [congruence| |].
  - do 2 predicts_step.
    destruct Hfail as [err Hreq|req err Hreq Hdo|req resp err Hreq Hdo Hdec].
    + rewrite Hreq. do 2 predicts_step. cbn. done.
    + rewrite Hreq. predicts_step. rewrite Hdo. do 2 predicts_step. cbn. done.
    + rewrite Hreq. predicts_step. rewrite Hdo. predicts_step. rewrite Hdec.
      do 2 predicts_step. cbn. split; [done|]. split; [done|]. intros. by predicts_step.
  - do 2 predicts_step. rewrite Hreq. predicts_step. rewrite Hdo. predicts_step.
    rewrite Hdec. cbn.
    rewrite bool_decide_eq_false_2 by (unfold len; rewrite Hempty; cbn; lia).
    cbn. split; [done|]. split; [done|]. intros. by predicts_step.
Qed.

Lemma processURLs_cache_inv T (I : gocache.Cache → Prop) envs sched c t urls s :
  (∀ i url, urls !! i = Some url →
            predicts T I (envs i) (λ _, True) fuel None (getResponseFromURL url)) →
  I c → Forall (λ it, T it.2) sched →
  run sched (processURLs_start envs c t urls) = Some s →
  I (cache s).
Proof.
  intros Hpred HI HT Hrun.
  set (Vs := replicate (length urls) (λ _ : result, True)).
  destruct (processURLs_inv T I Vs envs sched c t urls s) as (gs & Hinv & _);
    [apply length_replicate| |done..|by destruct Hinv].
  intros i url V Hu [-> _]%lookup_replicate. by apply Hpred.
Qed.

Lemma gocache_Add_items c t k x d :
  gocache.items (gocache.Add c t k x d).2 = gocache.items c ∨
  ∃ exp, gocache.items (gocache.Add c t k x d).2 =
         <[k := {| gocache.Object := x; gocache.Expiration := exp |}]> (gocache.items c).
Proof.
  unfold gocache.Add. destruct (gocache.get c t k); cbn; [by left|]. right. eauto.
Qed.

Lemma gocache_Add_defaultExpiration c t k x d :
  gocache.defaultExpiration (gocache.Add c t k x d).2 = gocache.defaultExpiration c.
Proof. unfold gocache.Add. by destruct (gocache.get c t k). Qed.

(** X9. A call of [processURLs] changes no cache entry but those of its
    own URLs: at every point of every run, the entry of a key that is not
    among the URLs is what it was when the call started. *)
Theorem processURLs_touches_only_its_urls
    (envs : nat → netenv) (sched : list (nat * Z)) (c : gocache.Cache) (t : Z)
    (urls : list string) (s : sys) (k : string) :
  run sched (processURLs_start envs c t urls) = Some s →
  k ∉ urls →
  gocache.items (cache s) !! k = gocache.items c !! k ∧
  gocache.defaultExpiration (cache s) = gocache.defaultExpiration c.
Proof.
  intros Hrun Hk.
  apply (processURLs_cache_inv (λ _, True)
           (λ c', gocache.items c' !! k = gocache.items c !! k ∧
                  gocache.defaultExpiration c' = gocache.defaultExpiration c)
           envs sched c t urls s); [|done|apply Forall_trivial|done].
  intros i url Hu.
  assert (url ≠ k) as Hne.
  { intros ->. apply Hk. by eapply list_elem_of_lookup_2. }
  apply predicts_gen; [| |done..].
  - intros c' [Hit Hde]. cbn. by rewrite lookup_delete_ne.
  - intros c' t' p _ _ _ _ [Hit Hde]. rewrite gocache_Add_defaultExpiration.
    split; [|done].
    destruct (gocache_Add_items c' t' url (any_ints (Numbers p)) cacheExpiration)
      as [->|[exp ->]]; [done|]. by rewrite lookup_insert_ne.
Qed.

Lemma processURLs_touches_only_its_urls_witness :
  ("fibo"%string ∉ c9_urls) ∧
  ∃ s, run c9_sched (processURLs_start c9_envs c4_cache 1 c9_urls) = Some s ∧
       gocache.items (cache s) !! "fibo"%string = gocache.items c4_cache !! "fibo"%string.
Proof.
  assert ("fibo"%string ∉ c9_urls) as Hk.
  { intros H. repeat (apply elem_of_cons in H as [H|H]; [discriminate H|]).
    by apply elem_of_nil in H. }
  split; [exact Hk|].
  destruct (run c9_sched (processURLs_start c9_envs c4_cache 1 c9_urls)) as [s|] eqn:Hrun;
    [|by vm_compute in Hrun].
  exists s. split; [done|].
  exact (proj1 (processURLs_touches_only_its_urls _ _ _ _ _ _ _ Hrun Hk)).
Defined.

(** X10. The cache only ever holds non-empty [[]int] values: if that is
    so when [processURLs] starts (it is for the empty cache the server
    starts with), it is so at every point of every run. So the type
    assertion in [getResultFromCache] never fails, as the comment in the
    source says, and a lookup that finds an entry never yields an empty
    list. *)
Theorem cache_holds_nonempty_int_slices
    (envs : nat → netenv) (sched : list (nat * Z)) (c : gocache.Cache) (t : Z)
    (urls : list string) (s : sys) :
  cache_wf c →
  run sched (processURLs_start envs c t urls) = Some s →
  cache_wf (cache s) ∧
  ∀ now url val, gocache.Get (cache s) now url = Some val →
                 (assert_ints val).2 = true ∧ 0 < len (cached (cache s) now url).
Proof.
  intros Hwf Hrun.
  assert (cache_wf (cache s)) as Hwf'.
  { apply (processURLs_cache_inv (λ _, True) cache_wf envs sched c t urls s);
      [|done|apply Forall_trivial|done].
    intros i url Hu. apply predicts_gen; [| |done..].
    - intros c' Hc' k item Hk. cbn in Hk.
      apply lookup_delete_Some in Hk as [_ Hk]. by apply (Hc' k).
    - intros c' t' p _ _ Hlen _ Hc' k item Hk.
      destruct (gocache_Add_items c' t' url (any_ints (Numbers p)) cacheExpiration)
        as [Heq|[exp Heq]]; rewrite Heq in Hk; [by apply (Hc' k)|].
      apply lookup_insert_Some in Hk as [[_ <-]|[_ Hk]]; [|by apply (Hc' k)].
      cbn. eauto. }
  split; [done|]. intros now url val Hget. unfold cached. rewrite Hget.
  unfold gocache.Get, gocache.get in Hget.
  destruct (gocache.items (cache s) !! url) as [item|] eqn:Hitem; [|done].
  destruct (Hwf' url item Hitem) as (sl & Hobj & Hlen).
  destruct (_ && _); [done|]. simplify_eq. by rewrite Hobj.
Qed.

Lemma cache_wf_serverCache : cache_wf serverCache.
Proof. intros k item Hk. cbn in Hk. by rewrite lookup_empty in Hk. Qed.

Lemma cache_holds_nonempty_int_slices_witness :
  cache_wf serverCache ∧
  ∃ s, run c8_sched1 (processURLs_start (λ _, env_up) serverCache 0 c8_urls) = Some s ∧
       cache_wf (cache s).
Proof.
  split; [exact cache_wf_serverCache|].
  destruct (run c8_sched1 (processURLs_start (λ _, env_up) serverCache 0 c8_urls))
    as [s|] eqn:Hrun; [|by vm_compute in Hrun].
  exists s. split; [done|].
  exact (proj1 (cache_holds_nonempty_int_slices _ _ _ _ _ _ cache_wf_serverCache Hrun)).
Defined.

(** X11. Only fresh numbers change the cache: if every fetch of a call
    finds the context done, or fails, or decodes to no numbers, then at
    every point of every run the cache is exactly what it was when the
    call started. *)
Theorem cache_unchanged_without_fresh_numbers
    (envs : nat → netenv) (sched : list (nat * Z)) (c : gocache.Cache) (t : Z)
    (urls : list string) (s : sys) :
  (∀ i url, urls !! i = Some url → no_fresh (envs i) url) →
  run sched (processURLs_start envs c t urls) = Some s →
  cache s = c.
Proof.
  intros Hnf Hrun.
  apply (processURLs_cache_inv (λ _, True) (λ c', c' = c) envs sched c t urls s);
    [|done|apply Forall_trivial|done].
  intros i url Hu. apply predicts_no_fresh. by eapply Hnf.
Qed.

Lemma cache_unchanged_without_fresh_numbers_witness :
  (∀ i url, x11_urls !! i = Some url → no_fresh (x11_envs i) url) ∧
  ∃ s, run x11_sched (processURLs_start x11_envs c4_cache 1 x11_urls) = Some s ∧
       cache s = c4_cache.
Proof.
  assert (∀ i url, x11_urls !! i = Some url → no_fresh (x11_envs i) url) as Hnf.
  { intros [|[|[|i]]] url Hu; simplify_eq/=.
    - right; left. by eapply (fails_transport env_down "primes" {| req_url := "primes" |}).
    - by left.
    - right; right. exists {| Numbers := mk_slice [] |}. split; [|done].
      exists {| req_url := "squares" |}, {| Body := "squares" |}. by repeat split. }
  split; [exact Hnf|].
  destruct (run x11_sched (processURLs_start x11_envs c4_cache 1 x11_urls)) as [s|] eqn:Hrun;
    [|by vm_compute in Hrun].
  exists s. split; [done|].
  exact (cache_unchanged_without_fresh_numbers _ _ _ _ _ _ Hnf Hrun).
Defined.

Lemma Aggregate_sources
    (envs : nat → netenv) (sched : list (nat * Z)) (c : gocache.Cache) (t : Z)
    (urls : list string) (out : slice int) (x : Z) :
  Aggregate envs sched c t urls = Some out →
  x ∈ elems out →
  (∃ i url p, urls !! i = Some url ∧ ctx_done (envs i) = false ∧
              fetch_decodes (envs i) url p ∧ x ∈ elems (Numbers p)) ∨
  (∃ url item, url ∈ urls ∧ gocache.items c !! url = Some item ∧
               x ∈ elems (assert_ints (gocache.Object item)).1).
Proof.
  intros Hagg Hx. unfold Aggregate in Hagg.
  destruct (processURLs envs sched c t urls) as [[rs c']|] eqn:Hproc; [|done]. simplify_eq.
  set (P := λ y : Z,
    (∃ i url p, urls !! i = Some url ∧ ctx_done (envs i) = false ∧
                fetch_decodes (envs i) url p ∧ y ∈ elems (Numbers p)) ∨
    (∃ url item, url ∈ urls ∧ gocache.items c !! url = Some item ∧
                 y ∈ elems (assert_ints (gocache.Object item)).1)).
  set (I := λ c' : gocache.Cache, ∀ k item, k ∈ urls → gocache.items c' !! k = Some item →
                Forall P (elems (assert_ints (gocache.Object item)).1)).
  set (V := λ v : result, Forall P (numbers_of v)).
  set (Vs := replicate (length urls) V).
  assert (I c) as HI.
  { intros k item Hk Hitem. apply Forall_forall. intros y Hy. right. by exists k, item. }
  assert (∀ i url W, urls !! i = Some url → Vs !! i = Some W →
            predicts (λ _, True) I (envs i) W fuel None (getResponseFromURL url)) as Hpred.
  { intros i url W Hu [-> _]%lookup_replicate.
    assert (url ∈ urls) as Hin by (by eapply list_elem_of_lookup_2).
    apply predicts_gen.
    - intros c1 Hc1 k item Hk Hitem. cbn in Hitem.
      apply lookup_delete_Some in Hitem as [_ Hitem]. by apply (Hc1 k).
    - intros c1 t1 p Hdone Hdec _ _ Hc1 k item Hk Hitem.
      destruct (gocache_Add_items c1 t1 url (any_ints (Numbers p)) cacheExpiration)
        as [Heq|[exp Heq]]; rewrite Heq in Hitem; [by apply (Hc1 k)|].
      apply lookup_insert_Some in Hitem as [[_ <-]|[_ Hitem]]; [|by apply (Hc1 k)].
      cbn. apply Forall_forall. intros y Hy. left. by exists i, url, p.
    - intros c1 t1 _ Hc1. unfold V, numbers_of, mk_result, cached, gocache.Get, gocache.get. cbn.
      destruct (gocache.items c1 !! url) as [item|] eqn:Hitem; [|constructor].
      destruct (_ && _); [constructor|]. by apply (Hc1 url).
    - intros p Hdone Hdec. apply Forall_forall. intros y Hy. left. by exists i, url, p. }
  destruct (processURLs_results _ _ Vs envs sched c t urls rs c'
              (length_replicate _ _) Hpred HI (Forall_trivial _) Hproc)
    as (_ & vs & Hperm & Hvs).
  apply Forall2_replicate_l in Hvs as [Hall _].
  apply elem_of_processFinalResult in Hx as (r & Hr & Hxr).
  rewrite Hperm in Hr. rewrite Forall_forall in Hall.
  specialize (Hall r Hr). unfold V in Hall. rewrite Forall_forall in Hall. by apply Hall.
Qed.


(** X12. No number is made up: every number in the aggregate was decoded
    from the response of one of the fetches of this call, or was stored in
    the cache under one of the URLs when the call started. *)
Theorem aggregate_numbers_have_a_source
    (envs : nat → netenv) (sched : list (nat * Z)) (c : gocache.Cache) (t : Z)
    (urls : list string) (out : slice int) (x : Z) :
  Aggregate envs sched c t urls = Some out →
  x ∈ elems out →
  (∃ i url p, urls !! i = Some url ∧ ctx_done (envs i) = false ∧
              fetch_decodes (envs i) url p ∧ x ∈ elems (Numbers p)) ∨
  (∃ url item, url ∈ urls ∧ gocache.items c !! url = Some item ∧
               x ∈ elems (assert_ints (gocache.Object item)).1).
Proof. apply Aggregate_sources. Qed.

Lemma x12_run :
  Aggregate c9_envs c9_sched_after c4_cache 1 c8_urls = Some (mk_slice [1; 2; 6; 7; 9]%Z).
Proof. by vm_compute. Qed.

Lemma aggregate_numbers_have_a_source_witness :
  Aggregate c9_envs c9_sched_after c4_cache 1 c8_urls = Some (mk_slice [1; 2; 6; 7; 9]%Z) ∧
  (6%Z ∈ elems (mk_slice [1; 2; 6; 7; 9]%Z)) ∧
  ((∃ i url p, c8_urls !! i = Some url ∧ ctx_done (c9_envs i) = false ∧
               fetch_decodes (c9_envs i) url p ∧ 6%Z ∈ elems (Numbers p)) ∨
   (∃ url item, url ∈ c8_urls ∧ gocache.items c4_cache !! url = Some item ∧
                6%Z ∈ elems (assert_ints (gocache.Object item)).1)).
Proof.
  assert (6%Z ∈ elems (mk_slice [1; 2; 6; 7; 9]%Z)) as Hx by (cbn; repeat constructor).
  split; [exact x12_run|]. split; [exact Hx|].
  exact (aggregate_numbers_have_a_source _ _ _ _ _ _ _ x12_run Hx).
Defined.

(** X13. No fresh number is lost: when a fetch of the call goes through
    and decodes to a payload, every number of that payload is in the
    aggregate, whatever the other fetches do and in whatever order the
    goroutines run. *)
Theorem aggregate_contains_fresh_numbers
    (envs : nat → netenv) (sched : list (nat * Z)) (c : gocache.Cache) (t : Z)
    (urls : list string) (out : slice int) (i : nat) (url : string) (p : payload) (x : Z) :
  Aggregate envs sched c t urls = Some out →
  urls !! i = Some url →
  ctx_done (envs i) = false →
  fetch_decodes (envs i) url p →
  x ∈ elems (Numbers p) →
  x ∈ elems out.
Proof.
  intros Hagg Hu Hdone Hdec Hx. unfold Aggregate in Hagg.
  destruct (processURLs envs sched c t urls) as [[rs c']|] eqn:Hproc; [|done]. simplify_eq.
  set (Vi := λ v : result, v = {| data := p |}).
  set (Vs := <[i := Vi]> (replicate (length urls) (λ _ : result, True))).
  assert (length Vs = length urls) as Hlen.
  { unfold Vs. by rewrite length_insert, length_replicate. }
  assert (Vs !! i = Some Vi) as HVi.
  { unfold Vs. apply list_lookup_insert_eq. rewrite length_replicate.
    by eapply lookup_lt_Some. }
  assert (∀ j url' W, urls !! j = Some url' → Vs !! j = Some W →
            predicts (λ _, True) (λ _, True) (envs j) W fuel None (getResponseFromURL url'))
    as Hpred.
  { intros j url' W Hu' HW. destruct (decide (j = i)) as [->|Hne].
    - rewrite HVi in HW. simplify_eq. by apply predicts_decodes.
    - unfold Vs in HW. rewrite list_lookup_insert_ne in HW by done.
      apply lookup_replicate in HW as [-> _]. apply predicts_any. }
  destruct (processURLs_results _ _ Vs envs sched c t urls rs c' Hlen Hpred Logic.I
              (Forall_trivial _) Hproc) as (_ & vs & Hperm & Hvs).
  destruct (Forall2_lookup_l _ _ _ _ _ Hvs HVi) as (v & Hv & HViv).
  unfold Vi in HViv. subst v.
  apply elem_of_processFinalResult. exists {| data := p |}. split; [|done].
  rewrite Hperm. by eapply list_elem_of_lookup_2.
Qed.

Lemma aggregate_contains_fresh_numbers_witness :
  Aggregate c9_envs c9_sched_after c4_cache 1 c8_urls = Some (mk_slice [1; 2; 6; 7; 9]%Z) ∧
  c8_urls !! 0 = Some "primes"%string ∧
  fetch_decodes (c9_envs 0) "primes" {| Numbers := mk_slice [1; 2; 7]%Z |} ∧
  7%Z ∈ elems (mk_slice [1; 2; 6; 7; 9]%Z).
Proof.
  split; [exact x12_run|]. split; [reflexivity|]. split; [exact env_up_decodes_primes|].
  apply (aggregate_contains_fresh_numbers c9_envs c9_sched_after c4_cache 1 c8_urls _ 0
           "primes" {| Numbers := mk_slice [1; 2; 7]%Z |} 7 x12_run eq_refl eq_refl
           env_up_decodes_primes).
  cbn. repeat constructor.
Defined.

(** ** The handler *)

(** X14. [numbersHandler] answers 404 to every request whose path is not
    [/numbers], and also to every request for [/numbers] whose method is
    not GET (404, not 405); the path is checked first. In both cases it
    answers at once, under any schedule, in plain text, without reading or
    changing the cache; and it answers 200 only to a GET of [/numbers]. *)
Theorem numbersHandler_rejects
    (envs : nat → netenv) (sched : list (nat * Z)) (c : gocache.Cache) (t : Z) (r : Request) :
  (URL_Path r ≠ "/numbers"%string ∨ Method r ≠ "GET"%string →
   ∃ w, numbersHandler envs sched c t r = Some (w, c) ∧
        Code w = 404%Z ∧
        HeaderMap w !! "Content-Type"%string = Some "text/plain; charset=utf-8"%string ∧
        Written w = (if bool_decide (URL_Path r = "/numbers"%string)
                     then "method is not supported" else "404 not found")%string
                    +:+ newline) ∧
  (∀ w c', numbersHandler envs sched c t r = Some (w, c') → Code w = 200%Z →
           URL_Path r = "/numbers"%string ∧ Method r = "GET"%string).
Proof.
  unfold numbersHandler, MethodGet.
  destruct (decide (URL_Path r = "/numbers"%string)) as [Hpath|Hpath].
  - rewrite (bool_decide_eq_false_2 (URL_Path r ≠ "/numbers"%string)) by (intros ?; done).
    rewrite (bool_decide_eq_true_2 _ Hpath).
    destruct (decide (Method r = "GET"%string)) as [Hm|Hm].
    + rewrite (bool_decide_eq_false_2 (Method r ≠ "GET"%string)) by (intros ?; done).
      split; [by intros [?|?]|]. done.
    + rewrite (bool_decide_eq_true_2 _ Hm). split.
      * intros _. eexists. by repeat split.
      * intros w c' [= <- <-]. done.
  - rewrite (bool_decide_eq_true_2 _ Hpath), (bool_decide_eq_false_2 _ Hpath). split.
    + intros _. eexists. by repeat split.
    + intros w c' [= <- <-]. done.
Qed.

Lemma numbersHandler_rejects_witness :
  (URL_Path post_numbers ≠ "/numbers"%string ∨ Method post_numbers ≠ "GET"%string) ∧
  (URL_Path get_nums ≠ "/numbers"%string ∨ Method get_nums ≠ "GET"%string) ∧
  (∃ w, numbersHandler (λ _, env_up) c8_sched1 c4_cache 0 post_numbers = Some (w, c4_cache) ∧
        Code w = 404%Z ∧ Written w = ("method is not supported" +:+ newline)%string) ∧
  (∃ w, numbersHandler (λ _, env_up) [] c4_cache 0 get_nums = Some (w, c4_cache) ∧
        Code w = 404%Z ∧ Written w = ("404 not found" +:+ newline)%string).
Proof.
  assert (URL_Path post_numbers ≠ "/numbers"%string ∨ Method post_numbers ≠ "GET"%string)
    as H1 by (right; discriminate).
  assert (URL_Path get_nums ≠ "/numbers"%string ∨ Method get_nums ≠ "GET"%string)
    as H2 by (left; discriminate).
  split; [exact H1|]. split; [exact H2|]. split.
  - destruct (proj1 (numbersHandler_rejects (λ _, env_up) c8_sched1 c4_cache 0 post_numbers) H1)
      as (w & Hrun & Hcode & _ & Hbody).
    exists w. split; [exact Hrun|]. split; [exact Hcode|]. exact Hbody.
  - destruct (proj1 (numbersHandler_rejects (λ _, env_up) [] c4_cache 0 get_nums) H2)
      as (w & Hrun & Hcode & _ & Hbody).
    exists w. split; [exact Hrun|]. split; [exact Hcode|]. exact Hbody.
Defined.

(** X15. When [numbersHandler] has answered a GET of [/numbers], the
    status is 200, the content type is [application/json], and the body is
    the JSON object whose [numbers] field is a list of strictly increasing
    numbers, each of which was decoded by a fetch of this request or was
    in the cache under one of the requested URLs; the field is never
    [null], also when the request names no URL. *)
Theorem numbersHandler_ok
    (envs : nat → netenv) (sched : list (nat * Z)) (c c' : gocache.Cache) (t : Z)
    (r : Request) (w : ResponseRecorder) :
  URL_Path r = "/numbers"%string → Method r = "GET"%string →
  numbersHandler envs sched c t r = Some (w, c') →
  let urls := default [] (URL_Query r !! "u"%string) in
  Code w = 200%Z ∧
  HeaderMap w !! "Content-Type"%string = Some "application/json"%string ∧
  ∃ l, Written w = json_payload {| Numbers := mk_slice l |} ∧
       Written w ≠ json_payload {| Numbers := nil_slice |} ∧
       StronglySorted Z.lt l ∧
       ∀ x, x ∈ l →
         (∃ i url p, urls !! i = Some url ∧ ctx_done (envs i) = false ∧
                     fetch_decodes (envs i) url p ∧ x ∈ elems (Numbers p)) ∨
         (∃ url item, url ∈ urls ∧ gocache.items c !! url = Some item ∧
                      x ∈ elems (assert_ints (gocache.Object item)).1).
Proof.
  intros Hpath Hm Hrun urls. unfold numbersHandler, MethodGet in Hrun.
  rewrite bool_decide_eq_false_2 in Hrun by (intros ?; done).
  rewrite bool_decide_eq_false_2 in Hrun by (intros ?; done).
  fold urls in Hrun.
  destruct (processURLs envs sched c t urls) as [[rs c1]|] eqn:Hproc; [|done].
  simplify_eq. cbn. split; [done|]. split; [done|].
  destruct (processFinalResult_spec rs) as (l & Hl & Hs & Hel).
  exists l. rewrite Hl. split; [done|]. split; [|split; [done|]].
  - unfold json_payload, json_ints. cbn. intros [=].
  - intros x Hx. apply (Aggregate_sources envs sched c t urls (mk_slice l)); [|done].
    unfold Aggregate. by rewrite Hproc, Hl.
Qed.

Lemma numbersHandler_ok_witness :
  ∃ w c', numbersHandler (λ _, env_up) c8_sched1 serverCache 0 (get_numbers c8_urls)
            = Some (w, c') ∧
          Code w = 200%Z ∧
          Written w = json_payload {| Numbers := mk_slice [1; 2; 5; 7]%Z |}.
Proof.
  destruct (numbersHandler (λ _, env_up) c8_sched1 serverCache 0 (get_numbers c8_urls))
    as [[w c']|] eqn:Hrun; [|by vm_compute in Hrun].
  exists w, c'. split; [done|].
  destruct (numbersHandler_ok (λ _, env_up) c8_sched1 serverCache c' 0 (get_numbers c8_urls) w
              eq_refl eq_refl Hrun) as (Hcode & _ & _).
  split; [exact Hcode|]. vm_compute in Hrun. by simplify_eq.
Defined.



